(** * A shallow embedding of parts of the farm bundler core

    Covered sources:
    - crates/core/src/cache/{mod.rs,module_cache.rs}: the module cache;
    - crates/plugin_partial_bundling/src/generate_resource_pots.rs:
      resource pot naming;
    - crates/plugin_partial_bundling/src/module_bucket.rs: buckets, their
      size accumulators and the choice of the next bucket;
    - crates/node/src/lib.rs: [JsCompiler::resources], [JsCompiler::resource]
      and the macOS/Windows [FsWatcher::watch];
    - rust-plugins/sass/src/lib.rs: the sass option parsing. *)

From Stdlib Require Import ZArith Lia Ascii.
From stdpp Require Import base list gmap sets strings pretty.
Import ListNotations.

Open Scope Z_scope.

(* ------------------------------------------------------------------ *)
(** ** Paths ([std::path::PathBuf]) *)
(* ------------------------------------------------------------------ *)

Module RPath.

(** The components of a path, as [Path::components] yields them on Unix.
    Repeated and trailing separators and "." segments are dropped
    (a leading "." of a relative path, [CurDir] in Rust, is dropped too). *)
Inductive component :=
| RootDir
| Normal (s : string).

#[global] Instance component_eq_dec : EqDecision component.
Proof. solve_decision. Defined.

#[global] Program Instance component_countable : Countable component :=
  inj_countable'
    (fun c => match c with RootDir => None | Normal s => Some s end)
    (fun o => match o with None => RootDir | Some s => Normal s end) _.
Next Obligation. by intros []. Qed.

(** A path is compared by its components, as [Path]'s [PartialEq] does. *)
Abbreviation path := (list component).

(** Split a string at every '/'. *)
Fixpoint split_slash (cur : string) (s : string) : list string :=
  match s with
  | EmptyString => [cur]
  | String c rest =>
      if Ascii.eqb c "/"%char then cur :: split_slash EmptyString rest
      else split_slash (cur +:+ String c EmptyString) rest
  end.

Definition is_sep_start (s : string) : bool :=
  match s with
  | String c _ => Ascii.eqb c "/"%char
  | EmptyString => false
  end.

(** [Path::new(s)] / [PathBuf::from(s)]. *)
Definition from_str (s : string) : path :=
  (if is_sep_start s then [RootDir] else [])
  ++ map Normal
       (filter (fun seg => negb (String.eqb seg "") && negb (String.eqb seg "."))
          (split_slash EmptyString s)).

Definition is_absolute (p : path) : bool :=
  match p with RootDir :: _ => true | _ => false end.

(** [p.join(s)]: an absolute [s] replaces [p], a relative one is appended. *)
Definition join (p : path) (s : string) : path :=
  let q := from_str s in
  if is_absolute q then q else p ++ q.

(** [Path::parent]: [None] for the root and for the empty path. *)
Definition parent (p : path) : option path :=
  match rev p with
  | [] => None
  | RootDir :: _ => None
  | Normal _ :: r => Some (rev r)
  end.

(** [p.starts_with(base)]: [base]'s components are a prefix of [p]'s. *)
Fixpoint starts_with (p base : path) : bool :=
  match base, p with
  | [], _ => true
  | b :: base', c :: p' => bool_decide (c = b) && starts_with p' base'
  | _ :: _, [] => false
  end.

End RPath.

Import RPath.

(* ------------------------------------------------------------------ *)
(** ** A file system and the I/O programs of the cache *)
(* ------------------------------------------------------------------ *)

Module Fs.

Abbreviation bytes := (list Byte.byte).

Inductive io_error := NotFound | IsADirectory.

(** [std::io::Result]. *)
Inductive io_result (A : Type) :=
| IoOk (a : A)
| IoErr (e : io_error).
Arguments IoOk {A} a.
Arguments IoErr {A} e.

Record fs := mk_fs {
  fs_dirs : gset path;
  fs_files : gmap path bytes;
}.

(** [std::fs::write]: fails on a directory or when the parent directory
    does not exist; otherwise creates or truncates the file. *)
Definition write (st : fs) (p : path) (b : bytes) : io_result fs :=
  if bool_decide (p ∈ fs_dirs st) then IoErr IsADirectory
  else match parent p with
       | None => IoErr IsADirectory
       | Some d =>
           if bool_decide (d ∈ fs_dirs st)
           then IoOk (mk_fs (fs_dirs st) (<[p := b]> (fs_files st)))
           else IoErr NotFound
       end.

(** [std::fs::read]. *)
Definition read (st : fs) (p : path) : io_result bytes :=
  if bool_decide (p ∈ fs_dirs st) then IoErr IsADirectory
  else match fs_files st !! p with
       | Some b => IoOk b
       | None => IoErr NotFound
       end.

(** [Path::exists]. *)
Definition exists_ (st : fs) (p : path) : bool :=
  bool_decide (p ∈ fs_dirs st) || bool_decide (is_Some (fs_files st !! p)).

(** The file system calls a program makes. *)
Inductive event :=
| EvWrite (p : path) (b : bytes)
| EvRead (p : path)
| EvExists (p : path)
| EvRename (src dst : path).

(** A Rust function body that performs file I/O: each call hands its
    [io::Result] to the rest of the body; [IoPanic] is a panic. *)
Inductive io (A : Type) :=
| IoPure (a : A)
| IoPanic
| IoWrite (p : path) (b : bytes) (k : io_result unit -> io A)
| IoRead (p : path) (k : io_result bytes -> io A)
| IoExists (p : path) (k : bool -> io A).
Arguments IoPure {A} a.
Arguments IoPanic {A}.
Arguments IoWrite {A} p b k.
Arguments IoRead {A} p k.
Arguments IoExists {A} p k.

(** How a call ends: it returns a value or it panics. *)
Inductive outcome (A : Type) :=
| Returned (a : A)
| Panicked.
Arguments Returned {A} a.
Arguments Panicked {A}.

(** [Result::unwrap]. *)
Definition unwrap {A B} (r : io_result A) (k : A -> io B) : io B :=
  match r with
  | IoOk a => k a
  | IoErr _ => IoPanic
  end.

(** Run a program on a file system: its outcome, the final file system
    and the calls it made, in order. *)
Fixpoint run {A} (st : fs) (m : io A) : outcome A * fs * list event :=
  match m with
  | IoPure a => (Returned a, st, [])
  | IoPanic => (Panicked, st, [])
  | IoWrite p b k =>
      match write st p b with
      | IoOk st' => let '(o, st'', ev) := run st' (k (IoOk ())) in
                    (o, st'', EvWrite p b :: ev)
      | IoErr e => let '(o, st'', ev) := run st (k (IoErr e)) in
                   (o, st'', EvWrite p b :: ev)
      end
  | IoRead p k =>
      let '(o, st', ev) := run st (k (read st p)) in (o, st', EvRead p :: ev)
  | IoExists p k =>
      let '(o, st', ev) := run st (k (exists_ st p)) in (o, st', EvExists p :: ev)
  end.

Definition result_of {A} (st : fs) (m : io A) : outcome A := (run st m).1.1.
Definition state_of {A} (st : fs) (m : io A) : fs := (run st m).1.2.
Definition events_of {A} (st : fs) (m : io A) : list event := (run st m).2.

End Fs.

Import Fs.

(* ------------------------------------------------------------------ *)
(** ** The module cache (cache/module_cache.rs, cache/mod.rs) *)
(* ------------------------------------------------------------------ *)

Module ModuleCache.

Record ModuleCacheManager := { cache_dir : path }.

(** [ModuleCacheManager::new(root)], the only constructor in the source. *)
Definition new (root : string) : ModuleCacheManager :=
  {| cache_dir := join (join (join (from_str root) "node_modules/") ".farm") "cache" |}.

(** [self.cache_dir.join(code_hash)]. *)
Definition entry_path (m : ModuleCacheManager) (code_hash : string) : path :=
  join (cache_dir m) code_hash.

Section Codec.

(** [CachedModule] and the rkyv [serialize!]/[deserialize!] macros; a
    failed deserialisation panics. *)
Variable CachedModule : Type.
Variable serialize : CachedModule -> bytes.
Variable deserialize : bytes -> option CachedModule.

Definition has_module_cache (m : ModuleCacheManager) (code_hash : string) : io bool :=
  IoExists (entry_path m code_hash) IoPure.

Definition set_module_cache (m : ModuleCacheManager) (code_hash : string)
    (module : CachedModule) : io unit :=
  let bytes := serialize module in
  IoWrite (entry_path m code_hash) bytes (fun r => unwrap r (fun _ => IoPure ())).

Definition get_module_cache (m : ModuleCacheManager) (code_hash : string)
    : io CachedModule :=
  IoRead (entry_path m code_hash) (fun r =>
    unwrap r (fun bytes =>
      match deserialize bytes with
      | Some v => IoPure v
      | None => IoPanic
      end)).

End Codec.

Arguments set_module_cache {CachedModule} serialize m code_hash module.
Arguments get_module_cache {CachedModule} deserialize m code_hash.

(** A concrete codec, used to run the cache on examples: a one-byte
    [CachedModule]. *)
Definition byte_ser (b : Byte.byte) : bytes := [b].
Definition byte_de (bs : bytes) : option Byte.byte :=
  match bs with [b] => Some b | _ => None end.

End ModuleCache.

(* ------------------------------------------------------------------ *)
(** ** Statements of the spec about the cache, in its own words *)
(* ------------------------------------------------------------------ *)

Module CacheSpec.
Import ModuleCache.

(** [config::Mode]. *)
Inductive Mode := Development | Production.

Definition mode_str (m : Mode) : string :=
  match m with Development => "development" | Production => "production" end.

(** The layout the spec gives:
    [<cache_dir>/<namespace>/<mode>/modules/<hex-content-hash>]. *)
Definition spec_entry_path (cache_dir : string) (namespace : string) (mode : Mode)
    (k : string) : path :=
  join (join (join (join (from_str cache_dir) namespace) (mode_str mode)) "modules") k.

(** "Writes are atomic (write-to-temp then rename)": the calls contain a
    write of some other path, later renamed onto the destination. *)
Definition writes_via_temp_rename (evs : list event) (dst : path) : Prop :=
  exists tmp b i j, tmp <> dst /\ (i < j)%nat /\
    evs !! i = Some (EvWrite tmp b) /\ evs !! j = Some (EvRename tmp dst).

(** A file system with the directories of [ModuleCacheManager::new("/p")]. *)
Definition cache_fs : fs :=
  mk_fs (list_to_set [from_str "/"; from_str "/p"; from_str "/p/node_modules";
                      from_str "/p/node_modules/.farm";
                      from_str "/p/node_modules/.farm/cache"]) ∅.

Definition empty_fs : fs := mk_fs ∅ ∅.

End CacheSpec.

(* ------------------------------------------------------------------ *)
(** ** Resource pot naming (generate_resource_pots.rs) *)
(* ------------------------------------------------------------------ *)

Module PotName.

(** The index of the last '.' of a string, if any. *)
Fixpoint last_dot (s : string) (i : nat) (acc : option nat) : option nat :=
  match s with
  | EmptyString => acc
  | String c r => last_dot r (S i) (if Ascii.eqb c "."%char then Some i else acc)
  end.

(** [OsStr] [file_stem]: the name without its extension; a name whose only
    dot is its first character has no extension. *)
Definition file_stem (name : string) : string :=
  match last_dot name 0 None with
  | Some (S n) => String.substring 0 (S n) name
  | _ => name
  end.

(** Modelled from the spec: [utils::try_get_filename], which is not in the
    sources; the spec calls its result the final filename without
    extension. For a path without a final name it yields "". *)
Definition try_get_filename (p : path) : string :=
  match rev p with
  | Normal s :: _ => file_stem s
  | _ => ""
  end.

(** The [while path.parent().is_some()] loop: [fuel] bounds the number of
    iterations, each of which shortens [path]. *)
Fixpoint name_loop (used : gset string) (fuel : nat) (p : path) (name : string)
    : string :=
  match fuel with
  | O => name
  | S fuel' =>
      match parent p with
      | None => name
      | Some p' =>
          match parent p' with
          | None => name (* If the path is root, then break. *)
          | Some _ =>
              let name' := try_get_filename p' +:+ "_" +:+ name in
              if bool_decide (name' ∉ used) then name'
              else name_loop used fuel' p' name'
          end
      end
  end.

(** [generate_resource_pot_name]; [entries] is [module_graph.entries]. *)
Definition generate_resource_pot_name (module_group_id : string)
    (used_resource_pot_names : gset string) (entries : gmap string string)
    : string :=
  match entries !! module_group_id with
  | Some name => name
  | None =>
      let p := from_str module_group_id in
      let name := try_get_filename p in
      if bool_decide (name ∉ used_resource_pot_names) then name
      else name_loop used_resource_pot_names (length p) p name
  end.

(** The spec's naming rule: the file name without extension, then that
    name with the parent segments prepended one at a time; the first of
    these not yet used. [candidates n ds] lists them, [ds] being the
    parent names from the nearest one outwards. *)
Fixpoint candidates (name : string) (dirs : list string) : list string :=
  name :: match dirs with
          | [] => []
          | d :: ds => candidates (d +:+ "_" +:+ name) ds
          end.

(** The first candidate not used; when all are used, the last one. *)
Definition first_unused_or_last (used : gset string) (cs : list string) : string :=
  match list_find (fun c => c ∉ used) cs with
  | Some (_, c) => c
  | None => default "" (last cs)
  end.

Definition normal_names (p : path) : list string :=
  omap (fun c => match c with Normal s => Some s | RootDir => None end) p.

Definition spec_pot_name (module_group_id : string) (used : gset string)
    (entries : gmap string string) : string :=
  match entries !! module_group_id with
  | Some name => name
  | None =>
      match rev (map file_stem (normal_names (from_str module_group_id))) with
      | [] => ""
      | n :: ds => first_unused_or_last used (candidates n ds)
      end
  end.

End PotName.

(* ------------------------------------------------------------------ *)
(** ** Module buckets (module_bucket.rs) *)
(* ------------------------------------------------------------------ *)

Module Bucket.

(** A [ModuleId] and a [ModuleBucketId] are strings; a [ModuleType] is
    represented by its name. *)
Abbreviation ModuleId := string.
Abbreviation ModuleBucketId := string.
Abbreviation ModuleType := string.

(** [PartialBundlingModuleBucketsConfig]: only its [weight] is read. *)
Record BucketConfig := { weight : Z }.

Record ModuleBucket := mk_bucket {
  id : ModuleBucketId;
  modules : gset ModuleId;
  config : BucketConfig;
  resource_units : gset string;
  size : gmap ModuleType Z;
}.

Definition usize_max : Z := 2 ^ 64 - 1.
Definition u128_modulus : Z := 2 ^ 128.

(** [ModuleBucket::new]. *)
Definition new (id : ModuleBucketId) (modules : gset ModuleId)
    (config : BucketConfig) : ModuleBucket :=
  mk_bucket id modules config ∅ ∅.

Definition with_size (b : ModuleBucket) (sz : gmap ModuleType Z) : ModuleBucket :=
  mk_bucket (id b) (modules b) (config b) (resource_units b) sz.

Definition with_modules (b : ModuleBucket) (ms : gset ModuleId) : ModuleBucket :=
  mk_bucket (id b) ms (config b) (resource_units b) (size b).

(** The arithmetic of [usize]: [checked] is whether the build checks
    overflow ([true] in the default dev profile, where [+=] and [-=]
    panic on overflow; [false] in the default release profile, where they
    wrap modulo 2^64). *)
Definition usize_modulus : Z := 2 ^ 64.

Definition usize_result (checked : bool) (r : Z) : option Z :=
  if checked && negb (bool_decide (0 <= r <= usize_max)) then None
  else Some (r mod usize_modulus).

(** [add_size]: an accumulator of 0 is inserted for a new type, then
    [+= size]. *)
Definition add_size (checked : bool) (b : ModuleBucket) (t : ModuleType) (s : Z)
    : option ModuleBucket :=
  let sz := if bool_decide (is_Some (size b !! t)) then size b else <[t := 0]> (size b) in
  let cur := default 0 (sz !! t) in
  match usize_result checked (cur + s) with
  | Some v => Some (with_size b (<[t := v]> sz))
  | None => None
  end.

(** [sub_size]: [-= size] when the type has an accumulator; nothing is
    done for a type without one. *)
Definition sub_size (checked : bool) (b : ModuleBucket) (t : ModuleType) (s : Z)
    : option ModuleBucket :=
  match size b !! t with
  | Some cur =>
      match usize_result checked (cur - s) with
      | Some v => Some (with_size b (<[t := v]> (size b)))
      | None => None
      end
  | None => Some b
  end.

(** [total_size]: the sum of the accumulators, as a [u128]. *)
Definition total_size (b : ModuleBucket) : Z :=
  map_fold (fun _ s r => r + s) 0 (size b).

(** [add_module]. *)
Definition add_module (checked : bool) (b : ModuleBucket) (m : ModuleId)
    (t : ModuleType) (s : Z) : option ModuleBucket :=
  add_size checked (with_modules b ({[m]} ∪ modules b)) t s.

(** [remove_module]: the size is subtracted before the membership is
    looked at; the [bool] is [HashSet::remove]'s result. *)
Definition remove_module (checked : bool) (b : ModuleBucket) (m : ModuleId)
    (t : ModuleType) (s : Z) : option (ModuleBucket * bool) :=
  match sub_size checked b t s with
  | Some b' => Some (with_modules b' (modules b' ∖ {[m]}), bool_decide (m ∈ modules b'))
  | None => None
  end.

(** The three numbers [find_best_process_bucket] compares, in order:
    the weight, [total_size * units_len] computed in [u128] (wrapping),
    and [units_len]. *)
Definition units_len (b : ModuleBucket) : Z := Z.of_nat (stdpp.base.size (resource_units b)).
Definition weighted_size (b : ModuleBucket) : Z :=
  (total_size b * units_len b) mod u128_modulus.

(** The reducer's choice: [true] keeps the accumulated bucket [a]. *)
Definition keep_first (b1 b2 : ModuleBucket) : bool :=
  match Z.compare (weight (config b1)) (weight (config b2)) with
  | Gt => true
  | Lt => false
  | Eq =>
      match Z.compare (weighted_size b1) (weighted_size b2) with
      | Gt => true
      | Lt => false
      | Eq =>
          match Z.compare (units_len b1) (units_len b2) with
          | Gt => true
          | Lt => false
          | Eq => true
          end
      end
  end.

(** [Iterator::reduce] over the ids in the set's iteration order; a
    missing bucket is an [unwrap] panic ([None]). *)
Fixpoint reduce_best (map : gmap ModuleBucketId ModuleBucket)
    (a : ModuleBucketId) (rest : list ModuleBucketId) : option ModuleBucketId :=
  match rest with
  | [] => Some a
  | b :: rest' =>
      match map !! a, map !! b with
      | Some b1, Some b2 => reduce_best map (if keep_first b1 b2 then a else b) rest'
      | _, _ => None
      end
  end.

(** [find_best_process_bucket]: [ids] is the iteration order of the
    [HashSet]; an empty set is an [unwrap] panic ([None]). *)
Definition find_best_process_bucket (ids : list ModuleBucketId)
    (map : gmap ModuleBucketId ModuleBucket) : option ModuleBucketId :=
  match ids with
  | [] => None
  | a :: rest => reduce_best map a rest
  end.

(** The strict lexicographic order of the compared numbers. *)
Definition key_lt (b1 b2 : ModuleBucket) : Prop :=
  weight (config b1) < weight (config b2) \/
  (weight (config b1) = weight (config b2) /\
   (weighted_size b1 < weighted_size b2 \/
    (weighted_size b1 = weighted_size b2 /\ units_len b1 < units_len b2))).

(** A sequence of [add_module] / [remove_module] calls on one bucket. *)
Inductive bucket_op :=
| OpAdd (m : ModuleId) (t : ModuleType) (s : Z)
| OpRemove (m : ModuleId) (t : ModuleType) (s : Z).

Fixpoint run_ops (checked : bool) (b : ModuleBucket) (ops : list bucket_op)
    : option ModuleBucket :=
  match ops with
  | [] => Some b
  | OpAdd m t s :: ops' =>
      match add_module checked b m t s with
      | Some b' => run_ops checked b' ops'
      | None => None
      end
  | OpRemove m t s :: ops' =>
      match remove_module checked b m t s with
      | Some (b', _) => run_ops checked b' ops'
      | None => None
      end
  end.

(** The accumulator of a type; a type without one counts 0. *)
Definition acc (b : ModuleBucket) (t : ModuleType) : Z := default 0 (size b !! t).

(** The precondition of the claim: every [remove_module(m, t, s)] is
    matched with an earlier [add_module(m, t, s)] not matched yet.
    [pending_after] returns the calls left unmatched, or [None] when a
    removal has no match. *)
Fixpoint remove_one (x : ModuleId * ModuleType * Z) (l : list (ModuleId * ModuleType * Z))
    : list (ModuleId * ModuleType * Z) :=
  match l with
  | [] => []
  | y :: l' => if decide (x = y) then l' else y :: remove_one x l'
  end.

Fixpoint pending_after (pend : list (ModuleId * ModuleType * Z)) (ops : list bucket_op)
    : option (list (ModuleId * ModuleType * Z)) :=
  match ops with
  | [] => Some pend
  | OpAdd m t s :: ops' => pending_after ((m, t, s) :: pend) ops'
  | OpRemove m t s :: ops' =>
      if bool_decide ((m, t, s) ∈ pend)
      then pending_after (remove_one (m, t, s) pend) ops'
      else None
  end.

Definition zsum {A} (f : A -> Z) (l : list A) : Z := foldr (fun x r => f x + r) 0 l.

(** The sizes of type [t] in a list of calls. *)
Definition psum (pend : list (ModuleId * ModuleType * Z)) (t : ModuleType) : Z :=
  zsum (fun '(_, t', s) => if bool_decide (t' = t) then s else 0) pend.

(** The precondition that no accumulator exceeds [usize::MAX]: at every
    [add_module] call, the exact value of its type's accumulator (the
    initial value [base] plus the sizes of the calls not matched yet,
    this one included) is at most [usize::MAX]. *)
Fixpoint bounded_after (base : ModuleType -> Z) (pend : list (ModuleId * ModuleType * Z))
    (ops : list bucket_op) : bool :=
  match ops with
  | [] => true
  | OpAdd m t s :: ops' =>
      bool_decide (base t + psum ((m, t, s) :: pend) t <= usize_max) &&
      bounded_after base ((m, t, s) :: pend) ops'
  | OpRemove m t s :: ops' => bounded_after base (remove_one (m, t, s) pend) ops'
  end.

Definition op_size (op : bucket_op) : Z :=
  match op with OpAdd _ _ s | OpRemove _ _ s => s end.

(** Two buckets alike in every compared number. *)
Definition tie_map : gmap ModuleBucketId ModuleBucket :=
  <["a" := new "a" ∅ {| weight := 0 |}]> {["b" := new "b" ∅ {| weight := 0 |}]}.

End Bucket.

(* ------------------------------------------------------------------ *)
(** ** The file watcher on macOS and Windows (node/src/lib.rs) *)
(* ------------------------------------------------------------------ *)

Module Watcher.

Inductive RecursiveMode := Recursive | NonRecursive.

(** [FsWatcher]: the paths it has subscribed at, and the [notify]
    subscriptions made so far (path and mode), oldest first. *)
Record FsWatcher := mk_watcher {
  watched_paths : list path;
  subscriptions : list (path * RecursiveMode);
}.

(** The test of the [rest.iter().all(..)] closure for component [comp] at
    [index]: every other path has at least [index + 1] components and its
    component number [index] is [comp]. *)
Definition all_have (rest : list path) (index : nat) (comp : component) : bool :=
  forallb (fun item =>
             if bool_decide (length item <= index)%nat then false
             else bool_decide (item !! index = Some comp)) rest.

(** The [for (index, comp) in first_item.components().enumerate()] loop:
    every component passing the test is pushed, at any index. *)
Fixpoint collect_prefix (rest : list path) (comps : list component) (index : nat)
    : list component :=
  match comps with
  | [] => []
  | comp :: comps' =>
      (if all_have rest index comp then [comp] else [])
      ++ collect_prefix rest comps' (S index)
  end.

Definition prefix_comps (first_item : path) (rest : list path) : list component :=
  collect_prefix rest first_item 0.

(** [PathBuf::from_iter]: each component is pushed; the root replaces
    what was built. *)
Definition from_iter (comps : list component) : path :=
  foldl (fun p c => match c with RootDir => [RootDir] | Normal s => p ++ [Normal s] end)
    [] comps.

(** [FsWatcher::watch] ([cfg(any(target_os = "macos", target_os = "windows"))]),
    on the strings [FileWatcher::watch] receives. *)
Definition watch (w : FsWatcher) (paths : list string) : FsWatcher :=
  match map from_str paths with
  | [] => w
  | first_item :: rest =>
      let watch_path := from_iter (prefix_comps first_item rest) in
      if existsb (fun item => starts_with watch_path item) (watched_paths w) then w
      else mk_watcher (watched_paths w ++ [watch_path])
                      (subscriptions w ++ [(watch_path, Recursive)])
  end.

(** The longest common prefix of component lists, as the spec and the
    source comment ("find the longest common prefix") describe it. *)
Fixpoint lcp2 (p q : path) : path :=
  match p, q with
  | c :: p', d :: q' => if bool_decide (c = d) then c :: lcp2 p' q' else []
  | _, _ => []
  end.

Definition longest_common_prefix (paths : list path) : path :=
  match paths with
  | [] => []
  | p :: ps => foldl lcp2 p ps
  end.

Definition fresh_watcher : FsWatcher := mk_watcher [] [].

End Watcher.

(* ------------------------------------------------------------------ *)
(** ** Sass plugin options (rust-plugins/sass/src/lib.rs) *)
(* ------------------------------------------------------------------ *)

Module Sass.

Local Set Warnings "-register-all".

(** [serde_json::Value]; numbers are kept as integers. *)
Inductive json :=
| JNull
| JBool (b : bool)
| JNum (n : Z)
| JStr (s : string)
| JArr (l : list json)
| JObj (kvs : list (string * json)).

(** A parser for the JSON texts used here, standing for
    [serde_json::from_str::<Value>]: literals, strings without escapes,
    non-negative integers, arrays and objects. *)
Definition dq_char : ascii := ascii_of_nat 34.

Definition is_ws (c : ascii) : bool :=
  Ascii.eqb c " "%char || Ascii.eqb c (ascii_of_nat 10) ||
  Ascii.eqb c (ascii_of_nat 9) || Ascii.eqb c (ascii_of_nat 13).

Fixpoint skip_ws (s : string) : string :=
  match s with
  | String c r => if is_ws c then skip_ws r else s
  | EmptyString => EmptyString
  end.

Fixpoint str_body (s : string) (acc : string) : option (string * string) :=
  match s with
  | EmptyString => None
  | String c r =>
      if Ascii.eqb c dq_char then Some (acc, r)
      else if Ascii.eqb c "\"%char then None
      else str_body r (acc +:+ String c EmptyString)
  end.

Definition digit_val (c : ascii) : option Z :=
  let n := Z.of_nat (nat_of_ascii c) - 48 in
  if bool_decide (0 <= n <= 9) then Some n else None.

Fixpoint digits (s : string) (acc : Z) : Z * string :=
  match s with
  | String c r =>
      match digit_val c with Some d => digits r (acc * 10 + d) | None => (acc, s) end
  | EmptyString => (acc, s)
  end.

Definition drop (n : nat) (s : string) : string :=
  String.substring n (String.length s - n) s.

Fixpoint parse_value (fuel : nat) (s : string) : option (json * string) :=
  match fuel with
  | O => None
  | S f =>
      let s := skip_ws s in
      match s with
      | EmptyString => None
      | String c r =>
          if Ascii.eqb c dq_char then
            match str_body r EmptyString with
            | Some (x, r') => Some (JStr x, r')
            | None => None
            end
          else if Ascii.eqb c "["%char then
            match skip_ws r with
            | String c' r' => if Ascii.eqb c' "]"%char then Some (JArr [], r')
                              else parse_elems f r []
            | EmptyString => None
            end
          else if Ascii.eqb c "{"%char then
            match skip_ws r with
            | String c' r' => if Ascii.eqb c' "}"%char then Some (JObj [], r')
                              else parse_members f r []
            | EmptyString => None
            end
          else if String.prefix "true" s then Some (JBool true, drop 4 s)
          else if String.prefix "false" s then Some (JBool false, drop 5 s)
          else if String.prefix "null" s then Some (JNull, drop 4 s)
          else match digit_val c with
               | Some d => let '(n, r') := digits r d in Some (JNum n, r')
               | None => None
               end
      end
  end
with parse_elems (fuel : nat) (s : string) (acc : list json)
    : option (json * string) :=
  match fuel with
  | O => None
  | S f =>
      match parse_value f s with
      | Some (v, r) =>
          match skip_ws r with
          | String c r' =>
              if Ascii.eqb c ","%char then parse_elems f r' (acc ++ [v])
              else if Ascii.eqb c "]"%char then Some (JArr (acc ++ [v]), r')
              else None
          | EmptyString => None
          end
      | None => None
      end
  end
with parse_members (fuel : nat) (s : string) (acc : list (string * json))
    : option (json * string) :=
  match fuel with
  | O => None
  | S f =>
      match skip_ws s with
      | String c r =>
          if negb (Ascii.eqb c dq_char) then None else
          match str_body r EmptyString with
          | Some (k, r1) =>
              match skip_ws r1 with
              | String c1 r2 =>
                  if negb (Ascii.eqb c1 ":"%char) then None else
                  match parse_value f r2 with
                  | Some (v, r3) =>
                      match skip_ws r3 with
                      | String c3 r4 =>
                          if Ascii.eqb c3 ","%char
                          then parse_members f r4 (acc ++ [(k, v)])
                          else if Ascii.eqb c3 "}"%char
                          then Some (JObj (acc ++ [(k, v)]), r4)
                          else None
                      | EmptyString => None
                      end
                  | None => None
                  end
              | EmptyString => None
              end
          | None => None
          end
      | EmptyString => None
      end
  end.

(** [serde_json::from_str::<Value>]: one value, then only whitespace. *)
Definition json_from_str (s : string) : option json :=
  match parse_value (2 * String.length s + 2) s with
  | Some (v, r) => if String.eqb (skip_ws r) "" then Some v else None
  | None => None
  end.

(** [Value::get]: a key of an object (the last binding of a repeated key,
    as [serde_json]'s map keeps it); [None] on other values. *)
Definition json_get (v : json) (k : string) : option json :=
  match v with
  | JObj kvs => fold_left (fun acc '(k', x) => if String.eqb k' k then Some x else acc)
                  kvs None
  | _ => None
  end.

(** [grass::Options], with the fields the plugin sets. *)
Record SassOptions := mk_sass_options {
  quiet : bool;
  allows_charset : bool;
  unicode_error_messages : bool;
  load_paths : list string;
}.

(** [grass::Options::default()]. *)
Definition default_options : SassOptions := mk_sass_options false true true [].

(** The body of [get_sass_options] after the parse: the three booleans,
    then [load_paths] set to [root] followed by the string entries of the
    "load_paths" array. *)
Definition options_from_value (options : json) (root : string) : SassOptions :=
  let quiet' := match json_get options "quiet" with
                | Some (JBool b) => b | _ => quiet default_options end in
  let charset' := match json_get options "allows_charset" with
                  | Some (JBool b) => b | _ => allows_charset default_options end in
  let unicode' := match json_get options "unicode_error_messages" with
                  | Some (JBool b) => b | _ => unicode_error_messages default_options end in
  let extra := match json_get options "load_paths" with
               | Some (JArr l) => omap (fun x => match x with JStr p => Some p | _ => None end) l
               | _ => []
               end in
  mk_sass_options quiet' charset' unicode' (root :: extra).

(** [FarmPluginSass::get_sass_options(&self, options, root)]: the text
    parsed is [self.sass_options], the plugin's own field (here
    [self_sass_options]), not the [options] argument; a failed parse is
    [Value::Null] ([unwrap_or_default]). *)
Definition get_sass_options (self_sass_options : string) (options : string)
    (root : string) : SassOptions :=
  options_from_value (default JNull (json_from_str self_sass_options)) root.

Record FarmPluginSass := { sass_options : SassOptions }.

(** [FarmPluginSass::new(config, options)]: calls [self.get_sass_options]
    with [self] standing for a plugin whose field holds [self_sass_options]. *)
Definition new (config_root : string) (options : string) (self_sass_options : string)
    : FarmPluginSass :=
  {| sass_options := get_sass_options self_sass_options options config_root |}.

(** The spec's reading: a function of [(options, root)] that parses
    [options]. *)
Definition spec_sass_options (options : string) (root : string) : SassOptions :=
  options_from_value (default JNull (json_from_str options)) root.

(** [{"quiet":true,"load_paths":["styles"]}]. *)
Definition dq : string := String dq_char EmptyString.
Definition sample_options : string :=
  "{" +:+ dq +:+ "quiet" +:+ dq +:+ ":true," +:+ dq +:+ "load_paths" +:+ dq
  +:+ ":[" +:+ dq +:+ "styles" +:+ dq +:+ "]}".

End Sass.

(* ------------------------------------------------------------------ *)
(** ** Resources at the JS surface (node/src/lib.rs) *)
(* ------------------------------------------------------------------ *)

Module Resources.

(** [Resource], with the fields read here. *)
Record Resource := mk_resource {
  name : string;
  bytes : list Byte.byte;
  emitted : bool;
}.

(** [JsCompiler::resources]: the loop over [resources.values()], in the
    map's iteration order [entries], inserting [(resource.name, bytes)]
    for every resource not emitted. *)
Definition resources_of (entries : list (string * Resource)) : gmap string (list Byte.byte) :=
  foldl (fun result '(_, r) =>
           if negb (emitted r) then <[name r := bytes r]> result else result)
    ∅ entries.

(** [JsCompiler::resource(name)]: [resources.get(&name)]'s bytes. *)
Definition resource (resources_map : gmap string Resource) (n : string)
    : option (list Byte.byte) :=
  bytes <$> resources_map !! n.

Definition sample_resources : gmap string Resource :=
  <["a.js" := mk_resource "a.js" [Byte.x01] false]>
    {["b.css" := mk_resource "b.css" [Byte.x02] true]}.

End Resources.

(* ------------------------------------------------------------------ *)
(** ** Cache keys *)
(* ------------------------------------------------------------------ *)

Module CacheNames.

(** A code hash that [Path::join] appends as one [Normal] component: not
    empty, not "." or "..", and without '/'. *)
Definition plain_name (s : string) : bool :=
  negb (String.eqb s "") && negb (String.eqb s ".") && negb (String.eqb s "..") &&
  forallb (fun c => negb (Ascii.eqb c "/"%char)) (String.list_ascii_of_string s).

End CacheNames.

(* ------------------------------------------------------------------ *)
(** ** The watcher and its [notify] calls (node/src/lib.rs) *)
(* ------------------------------------------------------------------ *)

Module WatcherOs.
Import Watcher.

(** The calls made on the [notify] watcher. *)
Inductive notify_call :=
| NWatch (p : path) (mode : RecursiveMode)
| NUnwatch (p : path).

(** [FsWatcher]: [watched_paths] and the [notify] calls made so far,
    oldest first. *)
Record Notified := mk_notified {
  n_watched : list path;
  n_calls : list notify_call;
}.

(** [FsWatcher::watch] on macOS and Windows. *)
Definition watch_macos (w : Notified) (paths : list string) : Notified :=
  match map from_str paths with
  | [] => w
  | first_item :: rest =>
      let watch_path := from_iter (prefix_comps first_item rest) in
      if existsb (fun item => starts_with watch_path item) (n_watched w) then w
      else mk_notified (n_watched w ++ [watch_path])
                       (n_calls w ++ [NWatch watch_path Recursive])
  end.

(** One iteration of the [for path in paths] loop of [FsWatcher::watch] on
    Linux: a path already in [watched_paths] is skipped; otherwise it is
    watched non-recursively (the error of that call is dropped by [.ok()])
    and pushed. *)
Definition watch_linux_one (w : Notified) (p : path) : Notified :=
  if bool_decide (p ∈ n_watched w) then w
  else mk_notified (n_watched w ++ [p]) (n_calls w ++ [NWatch p NonRecursive]).

(** [FsWatcher::watch] on Linux, on the strings [FileWatcher::watch]
    receives. *)
Definition watch_linux (w : Notified) (paths : list string) : Notified :=
  foldl (fun w s => watch_linux_one w (from_str s)) w paths.

(** [FsWatcher::unwatch]: a [notify] unwatch; [watched_paths] is left as
    it is. *)
Definition unwatch (w : Notified) (path : string) : Notified :=
  mk_notified (n_watched w) (n_calls w ++ [NUnwatch (from_str path)]).

(** [FileWatcher::unwatch]. *)
Definition file_unwatch (w : Notified) (paths : list string) : Notified :=
  foldl unwatch w paths.








End WatcherOs.

(* ------------------------------------------------------------------ *)
(** ** The load and transform hooks of the sass plugin *)
(* ------------------------------------------------------------------ *)

Module SassHooks.
Import Sass.

(** [Regex::new(r"\.(sass|scss)$").is_match(s)]: [s] ends with ".sass" or
    ".scss" ([$] is the end of the text). *)
Definition ends_with (suf s : string) : bool :=
  bool_decide (String.list_ascii_of_string suf `suffix_of` String.list_ascii_of_string s).

Definition regex_is_match (s : string) : bool :=
  ends_with ".sass" s || ends_with ".scss" s.

(** [ModuleType]: [Css], [Custom(name)], and the other built-in types by
    name. *)
Inductive ModuleType :=
| Css
| Custom (name : string)
| Builtin (name : string).

#[global] Instance ModuleType_eq_dec : EqDecision ModuleType.
Proof. solve_decision. Defined.

Record PluginLoadHookResult := mk_load_result {
  load_content : string;
  load_module_type : ModuleType;
}.

Record PluginTransformHookResult := mk_transform_result {
  transform_content : string;
  source_map : option string;
  transform_module_type : option ModuleType;
}.

Inductive CompilationError :=
| TransformError (resolved_path : string) (msg : string).

Section Hooks.

(** [farmfe_toolkit::fs::read_file_utf8], a failure being [None]. *)
Variable read_file_utf8 : string -> option string.
(** [grass::from_string]: the error message or the css. *)
Variable grass_from_string : string -> SassOptions -> string + string.

(** [Plugin::load] of [FarmPluginSass]: the read is unwrapped. *)
Definition load (resolved_path : string) : outcome (option PluginLoadHookResult) :=
  if regex_is_match resolved_path then
    match read_file_utf8 resolved_path with
    | Some content => Returned (Some (mk_load_result content (Custom "sass")))
    | None => Panicked
    end
  else Returned None.

(** [Plugin::transform] of [FarmPluginSass]. *)
Definition transform (plugin : FarmPluginSass) (resolved_path : string)
    (content : string) (module_type : ModuleType)
    : CompilationError + option PluginTransformHookResult :=
  if bool_decide (module_type = Custom "sass") then
    match grass_from_string content (sass_options plugin) with
    | inl msg => inl (TransformError resolved_path msg)
    | inr css => inr (Some (mk_transform_result css None (Some Css)))
    end
  else inr None.

End Hooks.

End SassHooks.

(* ------------------------------------------------------------------ *)
(** ** Resource pots from module group buckets (generate_resource_pots.rs) *)
(* ------------------------------------------------------------------ *)

Module PotGen.
Import Bucket PotName.

(** [ModuleGroupBuckets]: a module group and its bucket ids. *)
Record ModuleGroupBuckets := mk_group_buckets {
  module_group_id : string;
  buckets : list string;
}.

(** A [ResourcePot]: its id, the module type its [ResourcePotType] is made
    from, and its modules. *)
Record ResourcePot := mk_resource_pot {
  pot_id : string;
  pot_module_type : string;
  pot_modules : gset ModuleId;
}.

(** [String]'s [Ord]: byte-wise lexicographic. *)
Definition str_leb (a b : string) : bool :=
  match String.compare a b with Gt => false | _ => true end.

Fixpoint insert_sorted (x : string) (l : list string) : list string :=
  match l with
  | [] => [x]
  | y :: l' => if str_leb x y then x :: l else y :: insert_sorted x l'
  end.

(** [Vec<String>::sort]. *)
Definition sort_strings (l : list string) : list string :=
  foldr insert_sorted [] l.

Section Gen.

(** [module_bucket.module_type], read by [generate_resource_pots]. *)
Variable module_type_of : ModuleBucket -> string.

(** The inner [for (index, module_bucket_id) in ...enumerate()] loop: a
    handled bucket is skipped (its index is still consumed); a bucket
    missing from the map is an [unwrap] panic ([None]); otherwise the pot
    [<base>_<index>] is inserted with the bucket's modules, replacing a
    pot of the same id. *)
Fixpoint place_buckets (module_buckets_map : gmap string ModuleBucket)
    (base : string) (index : nat) (bs : list string) (handled : gset string)
    (pots : gmap string ResourcePot) : option (gset string * gmap string ResourcePot) :=
  match bs with
  | [] => Some (handled, pots)
  | bid :: bs' =>
      if bool_decide (bid ∈ handled)
      then place_buckets module_buckets_map base (S index) bs' handled pots
      else match module_buckets_map !! bid with
           | None => None
           | Some bk =>
               let pid := base +:+ "_" +:+ pretty index in
               place_buckets module_buckets_map base (S index) bs' ({[bid]} ∪ handled)
                 (<[pid := mk_resource_pot pid (module_type_of bk) (modules bk)]> pots)
           end
  end.

(** The outer [for mut module_group_bucket in module_group_buckets] loop. *)
Fixpoint generate_groups (module_buckets_map : gmap string ModuleBucket)
    (entries : gmap string string) (groups : list ModuleGroupBuckets)
    (used : gset string) (handled : gset string) (pots : gmap string ResourcePot)
    : option (gmap string ResourcePot) :=
  match groups with
  | [] => Some pots
  | g :: gs =>
      let base := generate_resource_pot_name (module_group_id g) used entries in
      match place_buckets module_buckets_map base 0 (sort_strings (buckets g)) handled pots with
      | Some (handled', pots') =>
          generate_groups module_buckets_map entries gs ({[base]} ∪ used) handled' pots'
      | None => None
      end
  end.

(** [generate_resource_pots]: the pots it returns are the values of the
    final [resource_pot_map]. *)
Definition generate_resource_pots (module_group_buckets : list ModuleGroupBuckets)
    (module_buckets_map : gmap string ModuleBucket) (entries : gmap string string)
    : option (gmap string ResourcePot) :=
  generate_groups module_buckets_map entries module_group_buckets ∅ ∅ ∅.

End Gen.

End PotGen.

(* ------------------------------------------------------------------ *)
(** ** Sample inputs *)
(* ------------------------------------------------------------------ *)

Module BucketSamples.
Import Bucket.

(** Two buckets of weights 0 and 1. *)
Definition weight_map : gmap ModuleBucketId ModuleBucket :=
  <["a" := new "a" ∅ {| weight := 0 |}]> {["b" := new "b" ∅ {| weight := 1 |}]}.

(** A bucket holding module "m", whose "js" accumulator is at
    [usize::MAX] and whose "css" accumulator is 0. *)
Definition full_bucket : ModuleBucket :=
  with_size (new "x" {[ "m" ]} {| weight := 0 |}) (<["js" := usize_max]> {["css" := 0]}).

(** Adding and removing a module of size 2^63, three times. *)
Definition rounds : list bucket_op :=
  [OpAdd "m" "js" (2 ^ 63); OpRemove "m" "js" (2 ^ 63);
   OpAdd "m" "js" (2 ^ 63); OpRemove "m" "js" (2 ^ 63);
   OpAdd "m" "js" (2 ^ 63); OpRemove "m" "js" (2 ^ 63)].

End BucketSamples.

Module SassSamples.
Import Sass.

(** A file system holding one sass file, and a grass that echoes. *)
Definition sample_read (p : string) : option string :=
  if String.eqb p "a.scss" then Some "a { b: c }" else None.

Definition sample_grass (content : string) (o : SassOptions) : string + string :=
  inr content.

End SassSamples.

Module PotGenInv.
Import Bucket PotGen.

Section Inv.
Variable module_type_of : ModuleBucket -> string.
Variable module_buckets_map : gmap string ModuleBucket.
Variable Q : string -> Prop.

(** Every pot is stored under its own id and holds the modules and the
    module type of a bucket of the map satisfying [Q]. *)
Definition pots_ok (pots : gmap string ResourcePot) : Prop :=
  forall pid pot, pots !! pid = Some pot ->
    pot_id pot = pid /\
    exists b bk, Q b /\ module_buckets_map !! b = Some bk /\
      pot_modules pot = modules bk /\ pot_module_type pot = module_type_of bk.

(** Every handled bucket id is in the map. *)
Definition handled_ok (handled : gset string) : Prop :=
  forall h, h ∈ handled -> is_Some (module_buckets_map !! h).

End Inv.

End PotGenInv.

(* ================================================================== *)
(** * Theorems *)
(* ================================================================== *)

Module CacheProofs.
Import ModuleCache CacheSpec.

Lemma write_ok_lookup (st st' : fs) (p : path) (b : bytes) :
  write st p b = IoOk st' ->
  (p ∉ fs_dirs st') /\ fs_files st' !! p = Some b.
Proof.
  unfold write. case_bool_decide as Hd; [discriminate|].
  destruct (parent p) as [d|]; [|discriminate].
  case_bool_decide; [|discriminate].
  intros [= <-]; simpl. split; [done|]. by rewrite lookup_insert_eq.
Qed.

(** C1: after [set_module_cache(k, v)] has returned, [has_module_cache(k)]
    is [true] and [get_module_cache(k)] returns [v], for every codec that
    round-trips (as rkyv's does for a [#[cache_item]] type). *)
Theorem module_cache_roundtrip {CM : Type} (ser : CM -> bytes)
    (de : bytes -> option CM) (Hcodec : forall v, de (ser v) = Some v)
    (m : ModuleCacheManager) (st : fs) (k : string) (v : CM) :
  result_of st (set_module_cache ser m k v) = Returned () ->
  let st' := state_of st (set_module_cache ser m k v) in
  result_of st' (has_module_cache m k) = Returned true /\
  result_of st' (get_module_cache de m k) = Returned v.
Proof.
  unfold result_of, state_of, set_module_cache, has_module_cache,
    get_module_cache; simpl.
  destruct (write st (entry_path m k) (ser v)) as [st1|e] eqn:Hw;
    simpl; [|discriminate].
  intros _.
  destruct (write_ok_lookup _ _ _ _ Hw) as [Hnd Hf].
  unfold exists_, read. rewrite Hf.
  rewrite (bool_decide_eq_false_2 _ Hnd). simpl.
  by rewrite Hcodec.
Qed.

Lemma module_cache_roundtrip_witness :
  result_of cache_fs (set_module_cache byte_ser (new "/p") "ab" Byte.x01)
    = Returned () /\
  result_of (state_of cache_fs (set_module_cache byte_ser (new "/p") "ab" Byte.x01))
    (has_module_cache (new "/p") "ab") = Returned true /\
  result_of (state_of cache_fs (set_module_cache byte_ser (new "/p") "ab" Byte.x01))
    (get_module_cache byte_de (new "/p") "ab") = Returned Byte.x01.
Proof.
  split; [vm_compute; reflexivity|].
  apply (module_cache_roundtrip byte_ser byte_de (fun _ => eq_refl)).
  vm_compute; reflexivity.
Defined.

(** C2 (code bug): [ModuleCacheManager::new(root)], the only constructor
    in the source, ignores namespace and mode and places the entry for [k]
    at [<root>/node_modules/.farm/cache/<k>], not at
    [<cache_dir>/<namespace>/<mode>/modules/<k>]. *)
Theorem module_cache_layout_divergence :
  entry_path (new "/p") "ab" = from_str "/p/node_modules/.farm/cache/ab" /\
  entry_path (new "/p") "ab" <> spec_entry_path "/p" "n" Development "ab".
Proof. split; vm_compute; [reflexivity|discriminate]. Qed.

(** C3 (counterexample): on a file system without the cache directory,
    [get_module_cache] panics on the missing entry and [set_module_cache]
    panics on the failed write; neither treats the I/O failure as
    non-fatal. *)
Lemma module_cache_io_failure_panics :
  result_of empty_fs (get_module_cache byte_de (new "/p") "ab") = Panicked /\
  result_of empty_fs (set_module_cache byte_ser (new "/p") "ab" Byte.x01) = Panicked.
Proof. split; vm_compute; reflexivity. Qed.

(** C3, as amended: both operations unwrap their I/O result.
    [get_module_cache] returns the decoded entry when the read succeeds
    and the bytes decode, and panics otherwise (a failed read included);
    [set_module_cache] returns when the write succeeds and panics when it
    fails. *)
Theorem module_cache_io_outcomes {CM : Type} (ser : CM -> bytes)
    (de : bytes -> option CM) (m : ModuleCacheManager) (st : fs)
    (k : string) (v : CM) :
  result_of st (get_module_cache de m k) =
    match read st (entry_path m k) with
    | IoOk b => match de b with Some w => Returned w | None => Panicked end
    | IoErr _ => Panicked
    end /\
  result_of st (set_module_cache ser m k v) =
    match write st (entry_path m k) (ser v) with
    | IoOk _ => Returned ()
    | IoErr _ => Panicked
    end.
Proof.
  unfold result_of, get_module_cache, set_module_cache; simpl. split.
  - destruct (read st (entry_path m k)) as [b|e]; simpl; [|done].
    destruct (de b); done.
  - destruct (write st (entry_path m k) (ser v)); done.
Qed.

(** C6 (counterexample): the calls [set_module_cache] makes contain no
    write to a temporary file renamed onto the entry. *)
Lemma module_cache_write_not_via_temp :
  ~ writes_via_temp_rename
      (events_of cache_fs (set_module_cache byte_ser (new "/p") "ab" Byte.x01))
      (entry_path (new "/p") "ab").
Proof.
  unfold writes_via_temp_rename.
  intros (tmp & b & i & j & _ & Hij & _ & Hj).
  vm_compute in Hj. destruct j as [|[|j]]; [lia|discriminate|discriminate].
Qed.

(** C6, as amended: whatever the file system, [set_module_cache] makes
    exactly one call, a [std::fs::write] of the serialised bytes to the
    entry path itself: no temporary file, no rename. *)
Theorem module_cache_single_direct_write {CM : Type} (ser : CM -> bytes)
    (m : ModuleCacheManager) (st : fs) (k : string) (v : CM) :
  events_of st (set_module_cache ser m k v) = [EvWrite (entry_path m k) (ser v)].
Proof.
  unfold events_of, set_module_cache; simpl.
  destruct (write st (entry_path m k) (ser v)); done.
Qed.

End CacheProofs.

Module PotNameProofs.
Import PotName.

Lemma parent_snoc (pre : path) (ss : list string) (d : string) :
  parent (pre ++ map Normal (ss ++ [d])) = Some (pre ++ map Normal ss).
Proof.
  unfold parent. rewrite map_app; cbn [map]. rewrite app_assoc, rev_unit.
  by rewrite rev_involutive.
Qed.

Lemma try_get_filename_snoc (pre : path) (ss : list string) (d : string) :
  try_get_filename (pre ++ map Normal (ss ++ [d])) = file_stem d.
Proof.
  unfold try_get_filename. rewrite map_app; cbn [map]. by rewrite app_assoc, rev_unit.
Qed.

Lemma first_unused_head (used : gset string) (c : string) (cs : list string) :
  c ∉ used -> first_unused_or_last used (c :: cs) = c.
Proof. intros Hc. unfold first_unused_or_last; simpl. by rewrite decide_True. Qed.

Lemma first_unused_candidates_head (used : gset string) (c : string)
    (ds : list string) :
  c ∉ used -> first_unused_or_last used (candidates c ds) = c.
Proof. intros Hc. destruct ds; by apply first_unused_head. Qed.

Lemma first_unused_skip (used : gset string) (c c' : string) (cs : list string) :
  c ∈ used ->
  first_unused_or_last used (c :: c' :: cs) = first_unused_or_last used (c' :: cs).
Proof.
  intros Hc. unfold first_unused_or_last. rewrite last_cons_cons.
  cbn [list_find].
  destruct (decide (c ∉ used)); [done|].
  destruct (decide (c' ∉ used)); [done|].
  by destruct (list_find (fun c0 => c0 ∉ used) cs) as [[i x]|].
Qed.

(** The loop, once the file name has collided: it walks the candidate
    names in order. *)
Lemma name_loop_candidates (used : gset string) (pre : path)
    (Hpre : parent pre = None) (ss : list string) :
  forall (fuel : nat) (d name : string),
    (length ss < fuel)%nat -> name ∈ used ->
    name_loop used fuel (pre ++ map Normal (ss ++ [d])) name =
    first_unused_or_last used (candidates name (rev (map file_stem ss))).
Proof.
  induction ss as [|d' ss IH] using rev_ind;
    intros fuel d name Hfuel Hname; destruct fuel as [|fuel]; [lia| |lia|].
  - cbn [name_loop]. rewrite parent_snoc. simpl map. rewrite app_nil_r, Hpre.
    unfold first_unused_or_last; simpl.
    by rewrite (decide_False (P := name ∉ used)) by (intros Hn; by apply Hn).
  - cbn [name_loop]. rewrite parent_snoc, parent_snoc, try_get_filename_snoc.
    rewrite (map_app file_stem); cbn [map]. rewrite rev_unit.
    rewrite length_app in Hfuel; simpl in Hfuel.
    specialize (IH fuel d' (file_stem d' +:+ "_" +:+ name)).
    destruct (rev (map file_stem ss)) as [|r rs] eqn:E; cbn [candidates] in *;
      rewrite first_unused_skip by done;
      (case_bool_decide as Hn;
       [by rewrite first_unused_head
       |by rewrite IH by (done || lia)]).
Qed.

Lemma try_get_filename_no_parent (p : path) :
  parent p = None -> try_get_filename p = "".
Proof. unfold parent, try_get_filename. by destruct (rev p) as [|[|x] r]. Qed.

Lemma normal_names_map (b : bool) (segs : list string) :
  normal_names ((if b then [RootDir] else []) ++ map Normal segs) = segs.
Proof.
  unfold normal_names. destruct b; simpl;
    (induction segs as [|x segs IH]; [done|]); simpl; f_equal; exact IH.
Qed.

Lemma name_loop_no_parent (used : gset string) (fuel : nat) (p : path)
    (name : string) :
  parent p = None -> name_loop used fuel p name = name.
Proof. intros Hp. destruct fuel; simpl; [done|]. by rewrite Hp. Qed.

(** C4 (counterexample): when every candidate name is used, the name
    returned is a used one: with "a" used, the group "a" is named "a",
    and with "a" and "src_a" used, the group "src/a.html" is named
    "src_a". *)
Lemma pot_name_collision_kept :
  generate_resource_pot_name "a" {["a"]} ∅ = "a" /\ "a" ∈ ({["a"]} : gset string) /\
  generate_resource_pot_name "src/a.html" {["a"; "src_a"]} ∅ = "src_a" /\
  "src_a" ∈ ({["a"; "src_a"]} : gset string).
Proof.
  split; [vm_compute; reflexivity|]. split; [set_solver|].
  split; [vm_compute; reflexivity|set_solver].
Qed.

(** C4, as amended: an entry group gets its configured name; any other
    group gets the first of its candidate names that is not used (its
    file name without extension, then that name with the parent segments,
    each without extension, prepended one at a time and joined by '_'),
    or the last candidate when all are used. With the used names of
    scenario S4 this yields "a", "test_a" and "x_test_a". *)
Theorem pot_name_rule :
  (forall (module_group_id : string) (used : gset string)
          (entries : gmap string string),
     generate_resource_pot_name module_group_id used entries =
     spec_pot_name module_group_id used entries) /\
  generate_resource_pot_name "src/a.html" ∅ ∅ = "a" /\
  generate_resource_pot_name "test/a.html" {["a"]} ∅ = "test_a" /\
  generate_resource_pot_name "x/test/a" {["a"; "test_a"]} ∅ = "x_test_a".
Proof.
  split; [|split; [|split]]; [|vm_compute; reflexivity..].
  intros id used entries.
  unfold generate_resource_pot_name, spec_pot_name.
  destruct (entries !! id) as [name|]; [done|].
  set (pre := if is_sep_start id then [RootDir] else []).
  set (segs := filter (fun seg => negb (String.eqb seg "") && negb (String.eqb seg "."))
                 (split_slash EmptyString id)).
  change (from_str id) with (pre ++ map Normal segs).
  assert (Hpre : parent pre = None)
    by (unfold pre; destruct (is_sep_start id); reflexivity).
  assert (Hn : normal_names (pre ++ map Normal segs) = segs).
  { unfold pre. clearbody segs. apply normal_names_map. }
  rewrite Hn. clearbody pre segs.
  induction segs as [|d ss _] using rev_ind.
  - rewrite app_nil_r, try_get_filename_no_parent by done. simpl.
    case_bool_decide; [done|]. by rewrite name_loop_no_parent.
  - rewrite try_get_filename_snoc, (map_app file_stem); cbn [map].
    rewrite rev_unit.
    case_bool_decide as Hu.
    + by rewrite first_unused_candidates_head.
    + apply name_loop_candidates; [done| |set_solver].
      rewrite length_app, length_map, length_app; simpl; lia.
Qed.

End PotNameProofs.

Module BucketProofs.
Import Bucket.

Lemma key_lt_irrefl (b : ModuleBucket) : ~ key_lt b b.
Proof. unfold key_lt. lia. Qed.

Lemma key_le_lt_trans (a x b : ModuleBucket) :
  ~ key_lt a x -> key_lt a b -> key_lt x b.
Proof. unfold key_lt. lia. Qed.

Lemma key_lt_not_lt (a x b : ModuleBucket) :
  ~ key_lt a x -> key_lt a b -> ~ key_lt b x.
Proof. unfold key_lt. lia. Qed.

Lemma keep_first_spec (b1 b2 : ModuleBucket) :
  keep_first b1 b2 = true <-> ~ key_lt b1 b2.
Proof.
  unfold keep_first, key_lt.
  destruct (Z.compare_spec (weight (config b1)) (weight (config b2)));
    [destruct (Z.compare_spec (weighted_size b1) (weighted_size b2));
      [destruct (Z.compare_spec (units_len b1) (units_len b2))| |]| |];
    split; intros; try done; lia.
Qed.

(** The reducer's invariant: the accumulated bucket is not below any bucket
    seen so far, and it is above every bucket seen before it. *)
Lemma reduce_best_inv (map : gmap ModuleBucketId ModuleBucket)
    (rest : list ModuleBucketId) :
  forall (pre : list ModuleBucketId) (a : ModuleBucketId) (ba : ModuleBucket),
  map !! a = Some ba ->
  (forall x, x ∈ rest -> is_Some (map !! x)) ->
  (forall x bx, x ∈ pre -> map !! x = Some bx -> ~ key_lt ba bx) ->
  (exists k, pre !! k = Some a /\
     forall j x bx, (j < k)%nat -> pre !! j = Some x -> map !! x = Some bx ->
       key_lt bx ba) ->
  exists r br, reduce_best map a rest = Some r /\ map !! r = Some br /\
    (forall x bx, x ∈ pre ++ rest -> map !! x = Some bx -> ~ key_lt br bx) /\
    (exists k, (pre ++ rest) !! k = Some r /\
       forall j x bx, (j < k)%nat -> (pre ++ rest) !! j = Some x ->
         map !! x = Some bx -> key_lt bx br).
Proof.
  induction rest as [|b rest IH]; intros pre a ba Ha Hrest Hmax Hfirst.
  - exists a, ba. rewrite app_nil_r. simpl. done.
  - destruct (Hrest b) as [bb Hb]; [set_solver|].
    simpl. rewrite Ha, Hb.
    replace (pre ++ b :: rest) with ((pre ++ [b]) ++ rest)
      by by rewrite <- app_assoc.
    destruct (keep_first ba bb) eqn:Hk.
    + apply keep_first_spec in Hk.
      apply (IH (pre ++ [b]) a ba Ha); [set_solver| |].
      * intros x bx Hx Hbx. apply elem_of_app in Hx as [Hx|Hx]; [by eauto|].
        apply list_elem_of_singleton in Hx; subst x. congruence.
      * destruct Hfirst as (k & Hk' & Hlt). exists k.
        split; [by apply lookup_app_l_Some|].
        intros j x bx Hj Hx Hbx. apply (Hlt j x bx Hj); [|done].
        rewrite lookup_app_l in Hx; [done|].
        apply lookup_lt_Some in Hk'. lia.
    + assert (Hlt : key_lt ba bb)
        by (destruct (decide (key_lt ba bb)) as [|Hn]; [done|];
            apply keep_first_spec in Hn; congruence).
      apply (IH (pre ++ [b]) b bb Hb); [set_solver| |].
      * intros x bx Hx Hbx. apply elem_of_app in Hx as [Hx|Hx].
        -- by apply (key_lt_not_lt ba bx bb); [eauto|].
        -- apply list_elem_of_singleton in Hx; subst x.
           assert (bx = bb) by congruence; subst. apply key_lt_irrefl.
      * exists (length pre). split.
        -- by rewrite lookup_app_r, Nat.sub_diag by lia.
        -- intros j x bx Hj Hx Hbx. rewrite lookup_app_l in Hx by done.
           apply (key_le_lt_trans ba); [|done].
           apply (Hmax x bx); [|done]. by apply list_elem_of_lookup_2 with j.
Qed.

(** C5 (counterexample): buckets "a" and "b" agree on every compared
    number; the bucket returned is whichever the set yields first, so the
    same set {a, b} gives "a" or "b" depending on its iteration order, and
    no function of the set (a tie-break by id included) decides it. *)
Lemma best_bucket_tie_follows_iteration :
  find_best_process_bucket ["a"; "b"] tie_map = Some "a" /\
  find_best_process_bucket ["b"; "a"] tie_map = Some "b" /\
  ~ exists f : gset ModuleBucketId -> ModuleBucketId,
      forall l : list ModuleBucketId, NoDup l ->
        find_best_process_bucket l tie_map = Some (f (list_to_set l)).
Proof.
  assert (E1 : find_best_process_bucket ["a"; "b"] tie_map = Some "a")
    by (vm_compute; reflexivity).
  assert (E2 : find_best_process_bucket ["b"; "a"] tie_map = Some "b")
    by (vm_compute; reflexivity).
  split; [exact E1|]. split; [exact E2|].
  intros [f Hf].
  assert (H1 := Hf ["a"; "b"]). assert (H2 := Hf ["b"; "a"]).
  rewrite E1 in H1. rewrite E2 in H2.
  assert (Hset : list_to_set ["b"; "a"] = (list_to_set ["a"; "b"] : gset string))
    by set_solver.
  rewrite Hset in H2.
  assert (Some "a" = Some "b") as Hab.
  { rewrite H1, H2; [done| |]; repeat constructor; set_solver. }
  discriminate.
Qed.

(** C5, as amended: for a non-empty set of ids, all in the map,
    [find_best_process_bucket] returns a bucket that no other pending
    bucket beats under the order (higher weight, then greater
    [total_size * units_len] in [u128], then greater [units_len]); among
    equally good buckets it is the first in the set's iteration order. *)
Theorem best_bucket_first_maximal (ids : list ModuleBucketId)
    (map : gmap ModuleBucketId ModuleBucket) :
  ids <> [] ->
  (forall x, x ∈ ids -> is_Some (map !! x)) ->
  exists r br, find_best_process_bucket ids map = Some r /\ map !! r = Some br /\
    (forall x bx, x ∈ ids -> map !! x = Some bx -> ~ key_lt br bx) /\
    (exists k, ids !! k = Some r /\
       forall j x bx, (j < k)%nat -> ids !! j = Some x -> map !! x = Some bx ->
         key_lt bx br).
Proof.
  intros Hne Hall. destruct ids as [|a rest]; [done|].
  destruct (Hall a) as [ba Ha]; [set_solver|].
  apply (reduce_best_inv map rest [a] a ba Ha); [set_solver| |].
  - intros x bx Hx Hbx. apply list_elem_of_singleton in Hx; subst x.
    assert (bx = ba) by congruence; subst. apply key_lt_irrefl.
  - exists 0%nat. split; [done|]. intros; lia.
Qed.

Lemma best_bucket_first_maximal_witness :
  ["a"; "b"] <> [] /\
  (forall x, x ∈ ["a"; "b"] -> is_Some (tie_map !! x)) /\
  exists r br, find_best_process_bucket ["a"; "b"] tie_map = Some r /\
    tie_map !! r = Some br /\
    (forall x bx, x ∈ ["a"; "b"] -> tie_map !! x = Some bx -> ~ key_lt br bx) /\
    (exists k, ["a"; "b"] !! k = Some r /\
       forall j x bx, (j < k)%nat -> ["a"; "b"] !! j = Some x ->
         tie_map !! x = Some bx -> key_lt bx br).
Proof.
  assert (Hall : forall x, x ∈ ["a"; "b"] -> is_Some (tie_map !! x)).
  { intros x Hx. apply list_elem_of_In in Hx. simpl in Hx.
    destruct Hx as [<-|[<-|[]]]; vm_compute; eauto. }
  split; [discriminate|]. split; [exact Hall|].
  apply best_bucket_first_maximal; [discriminate|exact Hall].
Defined.

Lemma usize_result_in_range (checked : bool) (r : Z) :
  0 <= r <= usize_max -> usize_result checked r = Some r.
Proof.
  intros Hr. unfold usize_result. rewrite bool_decide_eq_true_2 by done.
  rewrite andb_false_r, Z.mod_small; [done|]. unfold usize_max, usize_modulus in *. lia.
Qed.

Lemma add_module_spec (checked : bool) (b : ModuleBucket) (m : ModuleId)
    (t : ModuleType) (s : Z) :
  0 <= acc b t + s <= usize_max ->
  exists b', add_module checked b m t s = Some b' /\
    (forall t', acc b' t' = acc b t' + (if bool_decide (t = t') then s else 0)) /\
    (forall t', is_Some (size b !! t') -> is_Some (size b' !! t')) /\
    is_Some (size b' !! t).
Proof.
  unfold add_module, add_size, acc; simpl. intros Hs.
  destruct (size b !! t) as [cur|] eqn:Hk; simpl in Hs.
  - rewrite (bool_decide_eq_true_2 (is_Some (Some cur))) by eauto.
    rewrite Hk; simpl. rewrite usize_result_in_range by lia.
    eexists; split; [reflexivity|]; simpl.
    split; [|split]; [intros t'|intros t' Ht'|by rewrite lookup_insert_eq].
    + destruct (decide (t = t')) as [<-|Hne].
      * rewrite lookup_insert_eq, bool_decide_eq_true_2, Hk; done.
      * rewrite lookup_insert_ne, bool_decide_eq_false_2 by done. lia.
    + destruct (decide (t = t')) as [<-|Hne];
        [by rewrite lookup_insert_eq|by rewrite lookup_insert_ne].
  - rewrite (bool_decide_eq_false_2 (is_Some None)) by (by intros []).
    rewrite lookup_insert_eq; simpl. rewrite usize_result_in_range by lia.
    eexists; split; [reflexivity|]; simpl.
    split; [|split]; [intros t'|intros t' Ht'|by rewrite lookup_insert_eq].
    + destruct (decide (t = t')) as [<-|Hne].
      * rewrite lookup_insert_eq, bool_decide_eq_true_2, Hk; done.
      * rewrite lookup_insert_ne, lookup_insert_ne, bool_decide_eq_false_2
          by done. lia.
    + destruct (decide (t = t')) as [<-|Hne];
        [by rewrite lookup_insert_eq|by rewrite !lookup_insert_ne].
Qed.

Lemma remove_module_spec (checked : bool) (b : ModuleBucket) (m : ModuleId)
    (t : ModuleType) (s : Z) :
  is_Some (size b !! t) -> 0 <= s <= acc b t -> acc b t <= usize_max ->
  exists b' r, remove_module checked b m t s = Some (b', r) /\
    (forall t', acc b' t' = acc b t' - (if bool_decide (t = t') then s else 0)) /\
    (forall t', is_Some (size b !! t') -> is_Some (size b' !! t')).
Proof.
  intros [cur Hcur] Hs Hmax. unfold acc in Hs, Hmax. rewrite Hcur in Hs, Hmax.
  simpl in Hs, Hmax.
  unfold remove_module, sub_size. rewrite Hcur.
  rewrite usize_result_in_range by lia.
  do 2 eexists; split; [reflexivity|]; unfold acc; simpl.
  split; [intros t'|intros t' Ht'].
  - destruct (decide (t = t')) as [<-|Hne].
    + rewrite lookup_insert_eq, bool_decide_eq_true_2, Hcur; done.
    + rewrite lookup_insert_ne, bool_decide_eq_false_2 by done. lia.
  - destruct (decide (t = t')) as [<-|Hne];
      [by rewrite lookup_insert_eq|by rewrite lookup_insert_ne].
Qed.

Lemma psum_cons (x : ModuleId * ModuleType * Z) (l : list (ModuleId * ModuleType * Z))
    (t : ModuleType) :
  psum (x :: l) t = psum [x] t + psum l t.
Proof. destruct x as [[m t'] s]. unfold psum, zsum; simpl. lia. Qed.

Lemma psum_single (m : ModuleId) (t : ModuleType) (s : Z) (t' : ModuleType) :
  psum [(m, t, s)] t' = if bool_decide (t = t') then s else 0.
Proof. unfold psum, zsum; simpl. case_bool_decide; lia. Qed.

Lemma psum_remove_one (x : ModuleId * ModuleType * Z)
    (l : list (ModuleId * ModuleType * Z)) (t : ModuleType) :
  x ∈ l -> psum l t = psum [x] t + psum (remove_one x l) t.
Proof.
  induction l as [|y l IH]; intros Hx; [set_solver|]. cbn [remove_one].
  destruct (decide (x = y)) as [<-|Hne].
  - apply psum_cons.
  - rewrite (psum_cons y l), (psum_cons y (remove_one x l)), IH; [lia|set_solver].
Qed.

Lemma elem_of_remove_one (x y : ModuleId * ModuleType * Z)
    (l : list (ModuleId * ModuleType * Z)) :
  y ∈ remove_one x l -> y ∈ l.
Proof.
  induction l as [|z l IH]; simpl; [done|].
  destruct (decide (x = z)); [set_solver|]. set_solver.
Qed.

Lemma psum_nonneg (l : list (ModuleId * ModuleType * Z)) (t : ModuleType) :
  (forall m t' s, (m, t', s) ∈ l -> 0 <= s) -> 0 <= psum l t.
Proof.
  induction l as [|[[m t'] s] l IH]; intros Hl; [done|].
  rewrite psum_cons. unfold psum at 1, zsum; simpl.
  assert (0 <= s) by (apply (Hl m t'); set_solver).
  assert (0 <= psum l t)
    by (apply IH; intros m0 t0 s0 Hin; apply (Hl m0 t0 s0); set_solver).
  case_bool_decide; lia.
Qed.

(** The invariant along the calls: each accumulator is its initial value
    plus the sizes of the calls not matched yet, and stays a [usize]. *)
Lemma run_ops_inv (checked : bool) (base : ModuleType -> Z) (ops : list bucket_op) :
  forall (b : ModuleBucket) (pend P : list (ModuleId * ModuleType * Z)),
  (forall t, acc b t = base t + psum pend t) ->
  (forall m t s, (m, t, s) ∈ pend -> is_Some (size b !! t) /\ 0 <= s) ->
  (forall t, 0 <= base t) ->
  (forall t, base t + psum pend t <= usize_max) ->
  Forall (fun op => 0 <= op_size op) ops ->
  bounded_after base pend ops = true ->
  pending_after pend ops = Some P ->
  exists b', run_ops checked b ops = Some b' /\ forall t, acc b' t = base t + psum P t.
Proof.
  induction ops as [|op ops IH];
    intros b pend P Hacc Hpend Hbase Hbound Hsz Hbd Hp.
  - simpl in Hp. injection Hp as <-. by exists b.
  - inversion Hsz as [|? ? Hop Hsz']; subst.
    assert (Hpos : forall m t s, (m, t, s) ∈ pend -> 0 <= s)
      by (intros; eapply Hpend; eauto).
    destruct op as [m t s|m t s]; simpl in Hop, Hp |- *; cbn [bounded_after] in Hbd.
    + apply andb_true_iff in Hbd as [Hle Hbd]. apply bool_decide_eq_true_1 in Hle.
      rewrite psum_cons, psum_single, bool_decide_eq_true_2 in Hle by done.
      assert (0 <= psum pend t) by (apply psum_nonneg; exact Hpos).
      pose proof (Hbase t).
      destruct (add_module_spec checked b m t s) as (b' & -> & Hb' & Hkeys & Ht);
        [rewrite Hacc; lia|].
      apply (IH b' ((m, t, s) :: pend) P); try done.
      * intros t'. rewrite Hb', Hacc, psum_cons, psum_single. lia.
      * intros m' t' s' Hin. apply elem_of_cons in Hin as [Heq|Hin].
        -- injection Heq as -> -> ->. done.
        -- destruct (Hpend m' t' s' Hin). split; [by apply Hkeys|done].
      * intros t'. rewrite psum_cons, psum_single.
        destruct (decide (t = t')) as [<-|Hne].
        -- rewrite bool_decide_eq_true_2 by done. lia.
        -- rewrite bool_decide_eq_false_2 by done. specialize (Hbound t'). lia.
    + case_bool_decide as Hin; [|discriminate].
      destruct (Hpend m t s Hin) as [Hkey Hs].
      assert (Hrm := psum_remove_one (m, t, s) pend t Hin).
      assert (0 <= psum (remove_one (m, t, s) pend) t)
        by (apply psum_nonneg; intros; eapply Hpos, elem_of_remove_one; eauto).
      assert (Hle : 0 <= s <= acc b t).
      { rewrite Hacc, Hrm. unfold psum at 1, zsum; simpl.
        rewrite bool_decide_eq_true_2 by done. specialize (Hbase t). lia. }
      assert (Hmax : acc b t <= usize_max) by (rewrite Hacc; apply Hbound).
      destruct (remove_module_spec checked b m t s Hkey Hle Hmax)
        as (b' & r & -> & Hb' & Hkeys).
      apply (IH b' (remove_one (m, t, s) pend) P); try done.
      * intros t'. rewrite Hb', Hacc, (psum_remove_one (m, t, s) pend t' Hin).
        rewrite psum_single. lia.
      * intros m' t' s' Hin'. apply elem_of_remove_one in Hin'.
        destruct (Hpend m' t' s' Hin'). split; [by apply Hkeys|done].
      * intros t'. specialize (Hbound t').
        rewrite (psum_remove_one (m, t, s) pend t' Hin), psum_single in Hbound.
        case_bool_decide; lia.
Qed.

(** C10 (counterexample): module "m" of type "js" and size 5 is added twice
    and removed once; every removal is matched by an earlier addition, yet
    with either build profile the bucket ends with no module and a "js"
    accumulator of 5, not the 0 that the sizes of its (no) modules sum
    to. *)
Lemma bucket_size_counts_calls :
  pending_after [] [OpAdd "m" "js" 5; OpAdd "m" "js" 5; OpRemove "m" "js" 5]
    = Some [("m", "js", 5)] /\
  forall checked, exists b', run_ops checked (new "x" ∅ {| weight := 0 |})
               [OpAdd "m" "js" 5; OpAdd "m" "js" 5; OpRemove "m" "js" 5] = Some b' /\
    modules b' = ∅ /\ acc b' "js" = 5.
Proof.
  split; [vm_compute; reflexivity|].
  intros checked; destruct checked;
    (eexists; split; [vm_compute; reflexivity|]; split; [|vm_compute; reflexivity];
     simpl; set_solver).
Qed.

(** C10, as amended: start from a bucket whose accumulators are [usize]
    values and run [add_module] / [remove_module] calls with [usize]
    sizes, in which every [remove_module(m, t, s)] is matched with a
    distinct earlier [add_module(m, t, s)] and no accumulator ever
    exceeds [usize::MAX]. Then, whether the build checks overflow or
    wraps, no call panics and no subtraction underflows, and each
    accumulator is its initial value plus the sizes of the [add_module]
    calls of its type left unmatched. *)
Theorem bucket_size_accounting (checked : bool) (b : ModuleBucket) (ops : list bucket_op)
    (P : list (ModuleId * ModuleType * Z)) :
  (forall t s, size b !! t = Some s -> 0 <= s <= usize_max) ->
  Forall (fun op => 0 <= op_size op) ops ->
  bounded_after (acc b) [] ops = true ->
  pending_after [] ops = Some P ->
  exists b', run_ops checked b ops = Some b' /\ forall t, acc b' t = acc b t + psum P t.
Proof.
  intros Hb Hsz Hbd Hp.
  apply (run_ops_inv checked (acc b) ops b [] P); try done.
  - intros t. unfold psum, zsum; simpl. lia.
  - intros m t s Hin. set_solver.
  - intros t. unfold acc. destruct (size b !! t) eqn:E; simpl; [|lia].
    by apply (Hb t).
  - intros t. unfold psum, zsum, acc; simpl. rewrite Z.add_0_r.
    destruct (size b !! t) eqn:E; simpl; [by apply (Hb t)|].
    unfold usize_max. lia.
Qed.

(** Three rounds of adding and removing a module of size 2^63 in a
    release build. *)
Lemma bucket_size_accounting_witness :
  (forall t s, size (new "x" ∅ {| weight := 0 |}) !! t = Some s -> 0 <= s <= usize_max) /\
  Forall (fun op => 0 <= op_size op) BucketSamples.rounds /\
  bounded_after (acc (new "x" ∅ {| weight := 0 |})) [] BucketSamples.rounds = true /\
  pending_after [] BucketSamples.rounds = Some [] /\
  exists b', run_ops false (new "x" ∅ {| weight := 0 |}) BucketSamples.rounds = Some b' /\
    forall t, acc b' t = acc (new "x" ∅ {| weight := 0 |}) t + psum [] t.
Proof.
  assert (H1 : forall t s, size (new "x" ∅ {| weight := 0 |}) !! t = Some s ->
                 0 <= s <= usize_max)
    by (intros t s H; discriminate).
  assert (H2 : Forall (fun op => 0 <= op_size op) BucketSamples.rounds)
    by (repeat constructor; simpl; lia).
  assert (H3 : bounded_after (acc (new "x" ∅ {| weight := 0 |})) [] BucketSamples.rounds
               = true) by (vm_compute; reflexivity).
  assert (H4 : pending_after [] BucketSamples.rounds = Some []) by (vm_compute; reflexivity).
  split; [exact H1|]. split; [exact H2|]. split; [exact H3|]. split; [exact H4|].
  exact (bucket_size_accounting false _ _ _ H1 H2 H3 H4).
Defined.

End BucketProofs.

Module WatcherProofs.
Import Watcher.

(** C7 (code bug): for "/a/b/c" and "/a/x/c" the loop keeps the matching
    component "c" after the mismatch at "b"/"x" and subscribes at "/a/c",
    while the longest common prefix is "/a"; "/a/c" is not a prefix of
    either requested path. *)
Theorem watch_prefix_skips_mismatch :
  subscriptions (watch fresh_watcher ["/a/b/c"; "/a/x/c"])
    = [(from_str "/a/c", Recursive)] /\
  longest_common_prefix [from_str "/a/b/c"; from_str "/a/x/c"] = from_str "/a" /\
  starts_with (from_str "/a/b/c") (from_str "/a/c") = false.
Proof. split; [|split]; vm_compute; reflexivity. Qed.

End WatcherProofs.

Module SassProofs.
Import Sass.

(** The sass settings do not depend on the [options] argument at all. *)
Lemma get_sass_options_ignores_options (self_sass_options o1 o2 root : string) :
  get_sass_options self_sass_options o1 root = get_sass_options self_sass_options o2 root.
Proof. reflexivity. Qed.

(** C8 (code bug): with [options] = {"quiet":true,"load_paths":["styles"]}
    and root "/r", [FarmPluginSass::new] reads [self.sass_options] (empty
    here, so the JSON value is [Null]) and yields the default settings
    with load paths ["/r"], whereas reading the [options] argument gives
    [quiet = true] and load paths ["/r"; "styles"]. Its result changes
    with the prior field and not with [options]. *)
Theorem sass_options_read_from_self :
  json_from_str sample_options =
    Some (JObj [("quiet", JBool true); ("load_paths", JArr [JStr "styles"])]) /\
  sass_options (new "/r" sample_options "") = mk_sass_options false true true ["/r"] /\
  spec_sass_options sample_options "/r" = mk_sass_options true true true ["/r"; "styles"] /\
  sass_options (new "/r" "{}" sample_options) = mk_sass_options true true true ["/r"; "styles"].
Proof. split; [|split; [|split]]; vm_compute; reflexivity. Qed.

End SassProofs.

Module ResourcesProofs.
Import Resources.

Lemma resources_fold_lookup (entries : list (string * Resource)) :
  forall (acc : gmap string (list Byte.byte)) (n : string),
  NoDup entries.*1 ->
  (forall k r, (k, r) ∈ entries -> name r = k) ->
  foldl (fun result '(_, r) =>
           if negb (emitted r) then <[name r := bytes r]> result else result)
    acc entries !! n =
  match (list_to_map entries : gmap string Resource) !! n with
  | Some r => if emitted r then acc !! n else Some (bytes r)
  | None => acc !! n
  end.
Proof.
  induction entries as [|[k r] entries IH]; intros acc n Hnd Hname; [done|].
  simpl. inversion Hnd as [|? ? Hk Hnd']; subst.
  rewrite IH; [|done|intros; apply Hname; set_solver].
  assert (Hr : name r = k) by (apply Hname; set_solver).
  destruct (decide (k = n)) as [<-|Hne].
  - rewrite lookup_insert_eq.
    rewrite (not_elem_of_list_to_map_1 entries k) by done.
    destruct (emitted r); simpl; [done|]. by rewrite Hr, lookup_insert_eq.
  - rewrite lookup_insert_ne by done.
    destruct ((list_to_map entries : gmap string Resource) !! n) as [r'|]; [destruct (emitted r')|];
      try done; (destruct (emitted r); simpl; [done|]; by rewrite Hr, lookup_insert_ne).
Qed.

(** C9: when [resources_map] is keyed by resource name, for any iteration
    order of the map, [resources()] maps a name to bytes exactly when the
    resource of that name is not emitted and has those bytes, while
    [resource(name)] returns the bytes of the named resource whatever its
    emitted flag. *)
Theorem resources_surface (resources_map : gmap string Resource)
    (entries : list (string * Resource)) :
  (forall k r, resources_map !! k = Some r -> name r = k) ->
  entries ≡ₚ map_to_list resources_map ->
  (forall n b, resources_of entries !! n = Some b <->
     exists r, resources_map !! n = Some r /\ emitted r = false /\ bytes r = b) /\
  (forall n r, resources_map !! n = Some r -> resource resources_map n = Some (bytes r)).
Proof.
  intros Hname Hperm.
  assert (Hnd : NoDup entries.*1).
  { rewrite Hperm. apply NoDup_fst_map_to_list. }
  assert (Hin : forall k r, (k, r) ∈ entries <-> resources_map !! k = Some r).
  { intros k r. rewrite Hperm. apply elem_of_map_to_list. }
  split.
  - intros n b. unfold resources_of.
    rewrite resources_fold_lookup; [|done|intros k r Hkr; by apply Hname, Hin].
    destruct (list_to_map entries !! n) as [r|] eqn:E.
    + apply elem_of_list_to_map_2, Hin in E.
      split.
      * destruct (emitted r) eqn:Ee; [by rewrite lookup_empty|].
        intros [= <-]. by exists r.
      * intros (r' & Hr' & He & <-). rewrite E in Hr'. injection Hr' as <-.
        by rewrite He.
    + rewrite lookup_empty. split; [discriminate|].
      intros (r & Hr & _). apply Hin, (elem_of_list_to_map_1 _ _ _ Hnd) in Hr.
      congruence.
  - intros n r Hr. unfold resource. by rewrite Hr.
Qed.

Lemma resources_surface_witness :
  (forall k r, sample_resources !! k = Some r -> name r = k) /\
  map_to_list sample_resources ≡ₚ map_to_list sample_resources /\
  (forall n b, resources_of (map_to_list sample_resources) !! n = Some b <->
     exists r, sample_resources !! n = Some r /\ emitted r = false /\ bytes r = b) /\
  (forall n r, sample_resources !! n = Some r ->
     resource sample_resources n = Some (bytes r)).
Proof.
  assert (H1 : forall k r, sample_resources !! k = Some r -> name r = k).
  { intros k r H. unfold sample_resources in H.
    apply lookup_insert_Some in H as [[<- <-]|[_ H]]; [reflexivity|].
    apply lookup_singleton_Some in H as [<- <-]. reflexivity. }
  split; [exact H1|]. split; [reflexivity|].
  exact (resources_surface sample_resources _ H1 (reflexivity _)).
Defined.

End ResourcesProofs.

Module CacheExtraProofs.
Import ModuleCache CacheNames.

Lemma string_app_cons (c : ascii) (a b : string) :
  String c a +:+ b = String c (a +:+ b).
Proof. reflexivity. Qed.

Lemma string_app_empty_r (a : string) : a +:+ "" = a.
Proof.
  induction a as [|c a IH]; [done|]. by rewrite string_app_cons, IH.
Qed.

Lemma string_app_snoc (a : string) (c : ascii) (r : string) :
  (a +:+ String c EmptyString) +:+ r = a +:+ String c r.
Proof.
  induction a as [|c' a IH]; [done|]. by rewrite !string_app_cons, IH.
Qed.

Lemma split_slash_plain (s : string) :
  forall cur, forallb (fun c => negb (Ascii.eqb c "/"%char)) (String.list_ascii_of_string s) = true ->
  split_slash cur s = [cur +:+ s].
Proof.
  induction s as [|c s IH]; intros cur Hs; simpl.
  - by rewrite string_app_empty_r.
  - simpl in Hs. apply andb_prop in Hs as [Hc Hs].
    apply negb_true_iff in Hc. rewrite Hc. rewrite IH by done.
    by rewrite string_app_snoc.
Qed.

Lemma from_str_plain (s : string) :
  plain_name s = true -> from_str s = [Normal s].
Proof.
  unfold plain_name. intros H.
  apply andb_prop in H as [H Hsl]. apply andb_prop in H as [H _].
  apply andb_prop in H as [He Hd].
  apply negb_true_iff in He. apply negb_true_iff in Hd.
  unfold from_str. rewrite split_slash_plain by done.
  assert (is_sep_start s = false) as ->.
  { destruct s as [|c r]; [done|]. simpl in Hsl |- *.
    apply andb_prop in Hsl as [Hc _]. by apply negb_true_iff in Hc. }
  change ("" +:+ s) with s. rewrite filter_cons_True; [done|]. by rewrite He, Hd.
Qed.

Lemma entry_path_plain (m : ModuleCacheManager) (k : string) :
  plain_name k = true -> entry_path m k = cache_dir m ++ [Normal k].
Proof.
  intros Hk. unfold entry_path, join. by rewrite from_str_plain.
Qed.

Lemma set_module_cache_frame {CM : Type} (ser : CM -> bytes)
    (m : ModuleCacheManager) (st : fs) (k : string) (v : CM) :
  fs_dirs (state_of st (set_module_cache ser m k v)) = fs_dirs st /\
  forall p, p <> entry_path m k ->
    fs_files (state_of st (set_module_cache ser m k v)) !! p = fs_files st !! p.
Proof.
  unfold state_of, set_module_cache; simpl.
  destruct (write st (entry_path m k) (ser v)) as [st'|e] eqn:Hw; simpl; [|done].
  revert Hw. unfold write. case_bool_decide; [discriminate|].
  destruct (parent (entry_path m k)); [|discriminate].
  case_bool_decide; [|discriminate]. intros [= <-]; simpl.
  split; [done|]. intros p Hp. by rewrite lookup_insert_ne.
Qed.

Lemma get_module_cache_result {CM : Type} (de : bytes -> option CM)
    (m : ModuleCacheManager) (st : fs) (k : string) :
  result_of st (get_module_cache de m k) =
    match read st (entry_path m k) with
    | IoOk b => match de b with Some w => Returned w | None => Panicked end
    | IoErr _ => Panicked
    end.
Proof.
  unfold result_of, get_module_cache; simpl.
  destruct (read st (entry_path m k)) as [b|e]; simpl; [|done].
  destruct (de b); done.
Qed.

(** [has_module_cache] and [get_module_cache] leave the file system as it
    is; [set_module_cache] creates no directory and changes no file but
    its own entry. *)
Theorem module_cache_frame {CM : Type} (ser : CM -> bytes)
    (de : bytes -> option CM) (m : ModuleCacheManager) (st : fs)
    (k : string) (v : CM) :
  state_of st (has_module_cache m k) = st /\
  state_of st (get_module_cache de m k) = st /\
  fs_dirs (state_of st (set_module_cache ser m k v)) = fs_dirs st /\
  (forall p, p <> entry_path m k ->
     fs_files (state_of st (set_module_cache ser m k v)) !! p = fs_files st !! p).
Proof.
  split; [done|]. split.
  - unfold state_of, get_module_cache; simpl.
    destruct (read st (entry_path m k)) as [b|e]; simpl; [|done].
    by destruct (de b).
  - apply set_module_cache_frame.
Qed.

(** For two different plain code hashes, [set_module_cache] of one leaves
    [has_module_cache] and [get_module_cache] of the other unchanged. *)
Theorem module_cache_keys_independent {CM : Type} (ser : CM -> bytes)
    (de : bytes -> option CM) (m : ModuleCacheManager) (st : fs)
    (k k' : string) (v : CM) :
  plain_name k = true -> plain_name k' = true -> k <> k' ->
  let st' := state_of st (set_module_cache ser m k v) in
  result_of st' (has_module_cache m k') = result_of st (has_module_cache m k') /\
  result_of st' (get_module_cache de m k') = result_of st (get_module_cache de m k').
Proof.
  intros Hk Hk' Hne st'.
  destruct (set_module_cache_frame ser m st k v) as [Hd Hf].
  assert (Hp : entry_path m k' <> entry_path m k).
  { rewrite !entry_path_plain by done. intros Heq.
    apply app_inv_head in Heq. congruence. }
  subst st'. split.
  - unfold has_module_cache. cbn [result_of run fst].
    unfold exists_. by rewrite Hd, Hf.
  - rewrite !get_module_cache_result. unfold read.
    by rewrite Hd, Hf.
Qed.

Lemma module_cache_keys_independent_witness :
  plain_name "ab" = true /\ plain_name "cd" = true /\ "ab" <> "cd" /\
  let st' := state_of CacheSpec.cache_fs (set_module_cache byte_ser (new "/p") "ab" Byte.x01) in
  result_of st' (has_module_cache (new "/p") "cd")
    = result_of CacheSpec.cache_fs (has_module_cache (new "/p") "cd") /\
  result_of st' (get_module_cache byte_de (new "/p") "cd")
    = result_of CacheSpec.cache_fs (get_module_cache byte_de (new "/p") "cd").
Proof.
  split; [reflexivity|]. split; [reflexivity|]. split; [discriminate|].
  apply module_cache_keys_independent; [reflexivity|reflexivity|discriminate].
Defined.

(** The empty code hash names the cache directory itself: once it exists,
    [has_module_cache("")] is [true] while [set_module_cache("")] and
    [get_module_cache("")] panic. *)
Theorem module_cache_empty_key {CM : Type} (ser : CM -> bytes)
    (de : bytes -> option CM) (m : ModuleCacheManager) (st : fs) (v : CM) :
  cache_dir m ∈ fs_dirs st ->
  result_of st (has_module_cache m "") = Returned true /\
  result_of st (set_module_cache ser m "" v) = Panicked /\
  result_of st (get_module_cache de m "") = Panicked.
Proof.
  intros Hd.
  assert (He : entry_path m "" = cache_dir m).
  { unfold entry_path, join. simpl. apply app_nil_r. }
  split; [|split].
  - unfold result_of, has_module_cache; simpl. unfold exists_.
    rewrite He, bool_decide_eq_true_2 by done. done.
  - unfold result_of, set_module_cache; simpl. unfold write.
    rewrite He, bool_decide_eq_true_2 by done. done.
  - rewrite get_module_cache_result. unfold read.
    rewrite He, bool_decide_eq_true_2 by done. done.
Qed.

Lemma module_cache_empty_key_witness :
  cache_dir (new "/p") ∈ fs_dirs CacheSpec.cache_fs /\
  result_of CacheSpec.cache_fs (has_module_cache (new "/p") "") = Returned true /\
  result_of CacheSpec.cache_fs (set_module_cache byte_ser (new "/p") "" Byte.x01) = Panicked /\
  result_of CacheSpec.cache_fs (get_module_cache byte_de (new "/p") "") = Panicked.
Proof.
  assert (H : cache_dir (new "/p") ∈ fs_dirs CacheSpec.cache_fs)
    by (apply (bool_decide_eq_true_1 _); vm_compute; reflexivity).
  split; [exact H|]. exact (module_cache_empty_key byte_ser byte_de (new "/p") _ Byte.x01 H).
Defined.

(** A code hash starting with '/' is absolute: [Path::join] drops the cache
    directory, and the three operations act on the hash's own path. *)
Theorem module_cache_absolute_key {CM : Type} (ser : CM -> bytes)
    (de : bytes -> option CM) (m : ModuleCacheManager) (st : fs)
    (k : string) (v : CM) :
  is_sep_start k = true ->
  events_of st (has_module_cache m k) = [EvExists (from_str k)] /\
  events_of st (set_module_cache ser m k v) = [EvWrite (from_str k) (ser v)] /\
  events_of st (get_module_cache de m k) = [EvRead (from_str k)].
Proof.
  intros Hk.
  assert (He : entry_path m k = from_str k).
  { unfold entry_path, join. unfold from_str at 1. by rewrite Hk. }
  unfold events_of, has_module_cache, set_module_cache, get_module_cache;
    simpl; rewrite He.
  split; [done|]. split.
  - by destruct (write st (from_str k) (ser v)).
  - destruct (read st (from_str k)) as [b|]; simpl; [|done]. by destruct (de b).
Qed.

Lemma module_cache_absolute_key_witness :
  is_sep_start "/etc/x" = true /\
  events_of CacheSpec.cache_fs (has_module_cache (new "/p") "/etc/x")
    = [EvExists (from_str "/etc/x")] /\
  events_of CacheSpec.cache_fs (set_module_cache byte_ser (new "/p") "/etc/x" Byte.x01)
    = [EvWrite (from_str "/etc/x") (byte_ser Byte.x01)] /\
  events_of CacheSpec.cache_fs (get_module_cache byte_de (new "/p") "/etc/x")
    = [EvRead (from_str "/etc/x")].
Proof.
  split; [reflexivity|].
  exact (module_cache_absolute_key byte_ser byte_de (new "/p") _ "/etc/x" Byte.x01 eq_refl).
Defined.

End CacheExtraProofs.

Module BucketExtraProofs.
Import Bucket BucketProofs.

Lemma size_fold_delete (sz : gmap ModuleType Z) (t : ModuleType) :
  map_fold (fun _ s r => r + s) 0 sz =
    default 0 (sz !! t) + map_fold (fun _ s r => r + s) 0 (delete t sz).
Proof.
  destruct (sz !! t) as [c|] eqn:E; simpl.
  - rewrite (map_fold_delete_L (fun _ s r => r + s) 0 t c sz); [lia| |done].
    intros; lia.
  - rewrite delete_id by done. lia.
Qed.

Lemma size_fold_insert (sz : gmap ModuleType Z) (t : ModuleType) (v : Z) :
  map_fold (fun _ s r => r + s) 0 (<[t := v]> sz) =
    map_fold (fun _ s r => r + s) 0 sz - default 0 (sz !! t) + v.
Proof.
  rewrite (size_fold_delete (<[t := v]> sz) t), (size_fold_delete sz t).
  rewrite lookup_insert_eq, delete_insert_eq. simpl. lia.
Qed.

Lemma usize_wrap_high (x : Z) :
  usize_max < x <= 2 * usize_max -> x mod usize_modulus = x - usize_modulus.
Proof.
  unfold usize_max, usize_modulus. intros Hx.
  replace x with ((x - 2 ^ 64) + 1 * 2 ^ 64) at 1 by lia.
  rewrite Z.mod_add, Z.mod_small; lia.
Qed.

Lemma usize_wrap_low (x : Z) :
  - usize_max <= x < 0 -> x mod usize_modulus = x + usize_modulus.
Proof.
  unfold usize_max, usize_modulus. intros Hx.
  replace x with ((x + 2 ^ 64) + (-1) * 2 ^ 64) at 1 by lia.
  rewrite Z.mod_add, Z.mod_small; lia.
Qed.

(** [add_module(m, t, s)], with [usize] accumulator and size: [m] joins
    the modules and no other accumulator changes. The accumulator of [t]
    grows by [s] when the sum fits in a [usize]; otherwise a build that
    checks overflow panics and a release build wraps the accumulator
    around 2^64. [total_size] changes exactly as the accumulator does. *)
Theorem add_module_effect (checked : bool) (b : ModuleBucket) (m : ModuleId)
    (t : ModuleType) (s : Z) :
  0 <= acc b t <= usize_max -> 0 <= s <= usize_max ->
  (add_module checked b m t s = None <-> checked = true /\ usize_max < acc b t + s) /\
  (forall b', add_module checked b m t s = Some b' ->
     modules b' = {[m]} ∪ modules b /\
     (forall t', t' <> t -> size b' !! t' = size b !! t') /\
     total_size b' = total_size b - acc b t + acc b' t /\
     acc b' t = if bool_decide (acc b t + s <= usize_max) then acc b t + s
                else acc b t + s - usize_modulus).
Proof.
  intros Ha Hs. unfold add_module, add_size, usize_result, total_size, acc in *.
  cbn [size with_modules] in *.
  destruct (size b !! t) as [c|] eqn:Ht; simpl in Ha.
  - rewrite (bool_decide_eq_true_2 (is_Some (Some c))) by eauto.
    rewrite Ht; simpl. destruct (bool_decide (0 <= c + s <= usize_max)) eqn:Hb;
      [apply bool_decide_eq_true_1 in Hb|apply bool_decide_eq_false_1 in Hb].
    + rewrite andb_false_r, Z.mod_small by (unfold usize_max, usize_modulus in *; lia).
      split; [split; [discriminate|lia]|].
      intros b' [= <-]; simpl. rewrite size_fold_insert, Ht, !lookup_insert_eq. simpl.
      split; [done|]. split; [intros t' Ht'; by rewrite lookup_insert_ne|].
      split; [lia|]. by rewrite bool_decide_eq_true_2 by lia.
    + destruct checked; simpl.
      * split; [split; [intros _; split; [done|lia]|done]|]. discriminate.
      * split; [split; [discriminate|intros [[=] _]]|].
        intros b' [= <-]; simpl. rewrite size_fold_insert, Ht, !lookup_insert_eq. simpl.
        split; [done|]. split; [intros t' Ht'; by rewrite lookup_insert_ne|].
        split; [lia|]. rewrite bool_decide_eq_false_2 by lia. apply usize_wrap_high. lia.
  - rewrite (bool_decide_eq_false_2 (is_Some None)) by (by intros []).
    rewrite lookup_insert_eq; simpl. rewrite bool_decide_eq_true_2 by lia.
    rewrite andb_false_r, Z.mod_small by (unfold usize_max, usize_modulus in *; lia).
    split; [split; [discriminate|lia]|].
    intros b' [= <-]; simpl. rewrite insert_insert_eq.
    rewrite size_fold_insert, Ht, !lookup_insert_eq. simpl.
    split; [done|]. split; [intros t' Ht'; by rewrite lookup_insert_ne|].
    split; [lia|]. by rewrite bool_decide_eq_true_2 by lia.
Qed.

Lemma add_module_effect_witness :
  (0 <= acc BucketSamples.full_bucket "js" <= usize_max /\ 0 <= 1 <= usize_max) /\
  ((add_module false BucketSamples.full_bucket "m" "js" 1 = None <->
      false = true /\ usize_max < acc BucketSamples.full_bucket "js" + 1) /\
   (forall b', add_module false BucketSamples.full_bucket "m" "js" 1 = Some b' ->
     modules b' = {[ "m" ]} ∪ modules BucketSamples.full_bucket /\
     (forall t', t' <> "js" -> size b' !! t' = size BucketSamples.full_bucket !! t') /\
     total_size b' = total_size BucketSamples.full_bucket
                     - acc BucketSamples.full_bucket "js" + acc b' "js" /\
     acc b' "js" = if bool_decide (acc BucketSamples.full_bucket "js" + 1 <= usize_max)
                   then acc BucketSamples.full_bucket "js" + 1
                   else acc BucketSamples.full_bucket "js" + 1 - usize_modulus)).
Proof.
  assert (H1 : 0 <= acc BucketSamples.full_bucket "js" <= usize_max)
    by (vm_compute; split; discriminate).
  assert (H2 : 0 <= 1 <= usize_max) by (unfold usize_max; lia).
  split; [split; [exact H1|exact H2]|].
  exact (add_module_effect false BucketSamples.full_bucket "m" "js" 1 H1 H2).
Defined.

(** [remove_module(m, t, s)], with [usize] accumulators and size: it
    returns whether [m] was in the bucket and removes [m]. The size is
    subtracted first, whether or not [m] was there: when [t] has an
    accumulator smaller than [s], a build that checks overflow panics and
    a release build wraps it around 2^64; when [t] has none, nothing is
    subtracted. [total_size] changes exactly as the accumulator does. *)
Theorem remove_module_effect (checked : bool) (b : ModuleBucket) (m : ModuleId)
    (t : ModuleType) (s : Z) :
  (forall c, size b !! t = Some c -> 0 <= c <= usize_max) -> 0 <= s <= usize_max ->
  (remove_module checked b m t s = None <->
     checked = true /\ exists c, size b !! t = Some c /\ c < s) /\
  (forall b' r, remove_module checked b m t s = Some (b', r) ->
     r = bool_decide (m ∈ modules b) /\
     modules b' = modules b ∖ {[m]} /\
     total_size b' = total_size b - acc b t + acc b' t /\
     acc b' t = match size b !! t with
                | Some c => if bool_decide (s <= c) then c - s else c - s + usize_modulus
                | None => 0
                end).
Proof.
  intros Hc Hs. unfold remove_module, sub_size, usize_result, total_size, acc.
  destruct (size b !! t) as [c|] eqn:Ht.
  - specialize (Hc c eq_refl).
    destruct (bool_decide (0 <= c - s <= usize_max)) eqn:Hb;
      [apply bool_decide_eq_true_1 in Hb|apply bool_decide_eq_false_1 in Hb].
    + rewrite andb_false_r, Z.mod_small by (unfold usize_max, usize_modulus in *; lia).
      split; [split; [discriminate|intros [_ (c' & Hc' & Hlt)]; injection Hc' as <-; lia]|].
      intros b' r [= <- <-]; simpl. split; [done|]. split; [done|].
      rewrite size_fold_insert, Ht, lookup_insert_eq. simpl.
      split; [lia|]. by rewrite bool_decide_eq_true_2 by lia.
    + destruct checked; simpl.
      * split; [split; [intros _; split; [done|exists c; split; [done|lia]]|done]|].
        discriminate.
      * split; [split; [discriminate|intros [[=] _]]|].
        intros b' r [= <- <-]; simpl. split; [done|]. split; [done|].
        rewrite size_fold_insert, Ht, lookup_insert_eq. simpl.
        split; [lia|]. rewrite bool_decide_eq_false_2 by lia. apply usize_wrap_low. lia.
  - split; [split; [discriminate|intros [_ (c' & Hc' & _)]; congruence]|].
    intros b' r [= <- <-]; simpl. rewrite Ht. simpl. split; [done|]. split; [done|]. lia.
Qed.

Lemma remove_module_effect_witness :
  ((forall c, size BucketSamples.full_bucket !! "css" = Some c -> 0 <= c <= usize_max) /\
   0 <= 1 <= usize_max) /\
  ((remove_module false BucketSamples.full_bucket "m" "css" 1 = None <->
     false = true /\ exists c, size BucketSamples.full_bucket !! "css" = Some c /\ c < 1) /\
   (forall b' r, remove_module false BucketSamples.full_bucket "m" "css" 1 = Some (b', r) ->
     r = bool_decide ("m" ∈ modules BucketSamples.full_bucket) /\
     modules b' = modules BucketSamples.full_bucket ∖ {[ "m" ]} /\
     total_size b' = total_size BucketSamples.full_bucket
                     - acc BucketSamples.full_bucket "css" + acc b' "css" /\
     acc b' "css" = match size BucketSamples.full_bucket !! "css" with
                    | Some c => if bool_decide (1 <= c) then c - 1 else c - 1 + usize_modulus
                    | None => 0
                    end)).
Proof.
  assert (H1 : forall c, size BucketSamples.full_bucket !! "css" = Some c ->
                 0 <= c <= usize_max).
  { intros c Hc. vm_compute in Hc. injection Hc as <-. unfold usize_max. lia. }
  assert (H2 : 0 <= 1 <= usize_max) by (unfold usize_max; lia).
  split; [split; [exact H1|exact H2]|].
  exact (remove_module_effect false BucketSamples.full_bucket "m" "css" 1 H1 H2).
Defined.

Lemma reduce_best_some (map : gmap ModuleBucketId ModuleBucket) (rest : list ModuleBucketId) :
  forall a r, reduce_best map a rest = Some r ->
  r ∈ a :: rest /\ (rest <> [] -> forall x, x ∈ a :: rest -> is_Some (map !! x)).
Proof.
  induction rest as [|b rest IH]; intros a r Hr; simpl in Hr.
  - injection Hr as <-. split; [set_solver|done].
  - destruct (map !! a) as [ba|] eqn:Ha; [|discriminate].
    destruct (map !! b) as [bb|] eqn:Hb; [|discriminate].
    destruct (IH _ _ Hr) as [Hin Hall]. split.
    + destruct (keep_first ba bb); set_solver.
    + intros _ x Hx. apply elem_of_cons in Hx as [->|Hx]; [by eauto|].
      apply elem_of_cons in Hx as [->|Hx]; [by eauto|].
      destruct rest as [|y rest']; [set_solver|].
      apply Hall; [done|]. destruct (keep_first ba bb); set_solver.
Qed.

(** [find_best_process_bucket] panics on an empty set; on a single id it
    returns that id without looking at the map; otherwise, when it
    returns, the result is one of the ids and every id was in the map (a
    missing one is an [unwrap] panic). *)
Theorem find_best_process_bucket_edges (ids : list ModuleBucketId)
    (map : gmap ModuleBucketId ModuleBucket) :
  find_best_process_bucket [] map = None /\
  (forall x, find_best_process_bucket [x] map = Some x) /\
  (forall r, find_best_process_bucket ids map = Some r ->
     r ∈ ids /\ ((2 <= length ids)%nat -> forall x, x ∈ ids -> is_Some (map !! x))).
Proof.
  split; [done|]. split; [done|].
  intros r Hr. destruct ids as [|a rest]; [discriminate|].
  destruct (reduce_best_some map rest a r Hr) as [Hin Hall].
  split; [done|]. intros Hlen. apply Hall. destruct rest; [simpl in Hlen; lia|done].
Qed.

(** A pending bucket whose weight is above that of every other pending
    bucket is chosen, whatever the iteration order. *)
Theorem find_best_process_bucket_top_weight (ids : list ModuleBucketId)
    (map : gmap ModuleBucketId ModuleBucket) (x : ModuleBucketId) (bx : ModuleBucket) :
  (forall y, y ∈ ids -> is_Some (map !! y)) ->
  x ∈ ids -> map !! x = Some bx ->
  (forall y b', y ∈ ids -> y <> x -> map !! y = Some b' ->
     weight (config b') < weight (config bx)) ->
  find_best_process_bucket ids map = Some x.
Proof.
  intros Hall Hx Hbx Hw. destruct ids as [|a rest]; [set_solver|].
  destruct (Hall a) as [ba Ha]; [set_solver|].
  destruct (reduce_best_inv map rest [a] a ba Ha) as (r & br & Hr & Hbr & Hmax & k & Hk & _).
  - intros y Hy. apply Hall. set_solver.
  - intros y b' Hy Hb'. apply list_elem_of_singleton in Hy; subst y.
    assert (b' = ba) by congruence; subst. apply key_lt_irrefl.
  - exists 0%nat. split; [done|]. intros; lia.
  - simpl. rewrite Hr. f_equal.
    destruct (decide (r = x)) as [|Hne]; [done|exfalso].
    assert (Hr_in : r ∈ a :: rest) by (by apply list_elem_of_lookup_2 with k).
    apply (Hmax x bx); [done|done|].
    left. by apply (Hw r br).
Qed.

Lemma find_best_process_bucket_top_weight_witness :
  (forall y, y ∈ ["a"; "b"] -> is_Some (BucketSamples.weight_map !! y)) /\
  "b" ∈ ["a"; "b"] /\ BucketSamples.weight_map !! "b" = Some (new "b" ∅ {| weight := 1 |}) /\
  (forall y b', y ∈ ["a"; "b"] -> y <> "b" -> BucketSamples.weight_map !! y = Some b' ->
     weight (config b') < weight (config (new "b" ∅ {| weight := 1 |}))) /\
  find_best_process_bucket ["a"; "b"] BucketSamples.weight_map = Some "b".
Proof.
  assert (H1 : forall y, y ∈ ["a"; "b"] -> is_Some (BucketSamples.weight_map !! y)).
  { intros y Hy. apply list_elem_of_In in Hy. simpl in Hy.
    destruct Hy as [<-|[<-|[]]]; vm_compute; eauto. }
  assert (H2 : "b" ∈ ["a"; "b"]) by (apply list_elem_of_In; simpl; auto).
  assert (H3 : BucketSamples.weight_map !! "b" = Some (new "b" ∅ {| weight := 1 |}))
    by reflexivity.
  assert (H4 : forall y b', y ∈ ["a"; "b"] -> y <> "b" -> BucketSamples.weight_map !! y = Some b' ->
     weight (config b') < weight (config (new "b" ∅ {| weight := 1 |}))).
  { intros y b' Hy Hne Hb'. apply list_elem_of_In in Hy. simpl in Hy.
    destruct Hy as [<-|[<-|[]]]; [|done].
    vm_compute in Hb'. injection Hb' as <-. simpl. lia. }
  split; [exact H1|]. split; [exact H2|]. split; [exact H3|]. split; [exact H4|].
  exact (find_best_process_bucket_top_weight _ _ _ _ H1 H2 H3 H4).
Defined.

End BucketExtraProofs.

Module WatcherExtraProofs.
Import Watcher WatcherOs.

Lemma starts_with_refl (p : path) : starts_with p p = true.
Proof.
  induction p as [|c p IH]; [done|]. simpl. by rewrite bool_decide_eq_true_2, IH.
Qed.

Lemma starts_with_prefix (p base : path) :
  starts_with p base = true <-> base `prefix_of` p.
Proof.
  revert p. induction base as [|b base IH]; intros p; simpl.
  - split; [intros _; apply prefix_nil|intros _; by destruct p].
  - destruct p as [|c p]; simpl.
    + split; [discriminate|]. intros [k Hk]. discriminate.
    + rewrite andb_true_iff, bool_decide_eq_true, IH. split.
      * intros [-> Hp]. by apply prefix_cons.
      * intros Hp. apply prefix_cons_inv_1 in Hp as Hcb.
        apply prefix_cons_inv_2 in Hp. done.
Qed.

Lemma lcp2_prefix (p q : path) : lcp2 p q `prefix_of` p /\ lcp2 p q `prefix_of` q.
Proof.
  revert q. induction p as [|c p IH]; intros q; simpl.
  - split; apply prefix_nil.
  - destruct q as [|d q]; [split; apply prefix_nil|].
    case_bool_decide as Hcd; [subst d|split; apply prefix_nil].
    destruct (IH q) as [H1 H2]. split; by apply prefix_cons.
Qed.

Lemma lcp_prefix (rest : list path) :
  forall first, foldl lcp2 first rest `prefix_of` first /\
  forall item, item ∈ rest -> foldl lcp2 first rest `prefix_of` item.
Proof.
  induction rest as [|r rest IH]; intros first; simpl.
  - split; [done|set_solver].
  - destruct (IH (lcp2 first r)) as [H1 H2]. destruct (lcp2_prefix first r) as [H3 H4].
    split; [by trans (lcp2 first r)|].
    intros item Hi. apply elem_of_cons in Hi as [->|Hi]; [by trans (lcp2 first r)|].
    by apply H2.
Qed.

Lemma collect_prefix_app (rest : list path) (L : list component) :
  forall comps idx,
  (forall item, item ∈ rest -> forall j c, L !! j = Some c -> item !! (idx + j)%nat = Some c) ->
  collect_prefix rest (L ++ comps) idx = L ++ collect_prefix rest comps (idx + length L).
Proof.
  induction L as [|c L IH]; intros comps idx H; simpl.
  - by rewrite Nat.add_0_r.
  - assert (Ha : all_have rest idx c = true).
    { apply forallb_forall. intros item Hi. apply list_elem_of_In in Hi.
      assert (Hc := H item Hi 0%nat c eq_refl). rewrite Nat.add_0_r in Hc.
      rewrite bool_decide_eq_false_2.
      - by apply bool_decide_eq_true_2.
      - apply lookup_lt_Some in Hc. lia. }
    rewrite Ha. simpl. f_equal. rewrite IH.
    + by replace (S idx + length L)%nat with (idx + S (length L))%nat by lia.
    + intros item Hi j c' Hj. rewrite <- (H item Hi (S j) c' Hj). f_equal. lia.
Qed.

Lemma collect_prefix_forall (P : component -> Prop) (rest : list path) (comps : list component) :
  forall idx, Forall P comps -> Forall P (collect_prefix rest comps idx).
Proof.
  induction comps as [|c comps IH]; intros idx H; simpl; [done|].
  inversion H as [|? ? Hc Hcs]; subst.
  apply Forall_app. split; [destruct (all_have rest idx c); auto|by apply IH].
Qed.

Lemma from_iter_step_normal (acc comps : list component) :
  Forall (fun c => c <> RootDir) comps ->
  foldl (fun p c => match c with RootDir => [RootDir] | Normal s => p ++ [Normal s] end)
    acc comps = acc ++ comps.
Proof.
  revert acc. induction comps as [|c comps IH]; intros acc H; simpl.
  - by rewrite app_nil_r.
  - inversion H as [|? ? Hc Hcs]; subst. destruct c as [|s]; [done|].
    rewrite IH by done. by rewrite <- app_assoc.
Qed.

Lemma from_iter_tail_normal (l : list component) :
  Forall (fun c => c <> RootDir) (tail l) -> from_iter l = l.
Proof.
  intros H. destruct l as [|c l]; [done|]. simpl in H. unfold from_iter. simpl.
  destruct c as [|s]; rewrite from_iter_step_normal by done; done.
Qed.

Lemma from_iter_app_normal (l x : list component) :
  Forall (fun c => c <> RootDir) x -> from_iter (l ++ x) = from_iter l ++ x.
Proof.
  intros H. unfold from_iter. rewrite foldl_app. by apply from_iter_step_normal.
Qed.

Lemma from_str_tail_normal (s : string) :
  Forall (fun c => c <> RootDir) (tail (from_str s)).
Proof.
  unfold from_str.
  assert (Hm : forall xs : list string, Forall (fun c => c <> RootDir) (map Normal xs)).
  { intros xs. apply Forall_forall. intros c Hc. apply list_elem_of_fmap in Hc as (x & -> & _).
    discriminate. }
  destruct (is_sep_start s); simpl; [apply Hm|].
  destruct (filter _ _); simpl; [constructor|]. apply Hm.
Qed.

Lemma from_iter_from_str (s : string) : from_iter (from_str s) = from_str s.
Proof. apply from_iter_tail_normal, from_str_tail_normal. Qed.

Lemma collect_prefix_nil (comps : list component) (idx : nat) :
  collect_prefix [] comps idx = comps.
Proof.
  revert idx. induction comps as [|c comps IH]; intros idx; simpl; [done|].
  by rewrite IH.
Qed.

(** On macOS and Windows, [FsWatcher::watch] adds at most one watched path,
    with one recursive subscription, and never drops one; calling it again
    with the same paths changes nothing. *)
Theorem watch_macos_grows_idempotent (w : FsWatcher) (paths : list string) :
  (exists extra, watched_paths (watch w paths) = watched_paths w ++ extra /\
     subscriptions (watch w paths) = subscriptions w ++ map (fun p => (p, Recursive)) extra /\
     (length extra <= 1)%nat) /\
  watch (watch w paths) paths = watch w paths.
Proof.
  unfold watch. destruct (map from_str paths) as [|f rest]; simpl.
  - split; [exists []; rewrite !app_nil_r; simpl; repeat split; lia|done].
  - destruct (existsb _ (watched_paths w)) eqn:Ex.
    + split; [exists []; rewrite !app_nil_r; simpl; repeat split; lia|]. by rewrite Ex.
    + split; [exists [from_iter (prefix_comps f rest)]; simpl; repeat split; lia|]. simpl.
      rewrite existsb_app. simpl. rewrite starts_with_refl, orb_true_r. done.
Qed.

(** When every requested path has the components of the first one (a
    single path, for instance), the watcher subscribes recursively at that
    very path, unless it lies under a path already watched. *)
Theorem watch_macos_same_paths (w : FsWatcher) (s : string) (rest : list string) :
  (forall r, r ∈ rest -> from_str r = from_str s) ->
  watch w (s :: rest) =
    if existsb (fun item => starts_with (from_str s) item) (watched_paths w) then w
    else mk_watcher (watched_paths w ++ [from_str s])
                    (subscriptions w ++ [(from_str s, Recursive)]).
Proof.
  intros Hr. unfold watch. simpl.
  assert (Hp : from_iter (prefix_comps (from_str s) (map from_str rest)) = from_str s).
  { unfold prefix_comps.
    rewrite <- (app_nil_r (from_str s)) at 1.
    rewrite collect_prefix_app.
    - simpl. by rewrite app_nil_r, from_iter_from_str.
    - intros item Hi j c Hj. apply list_elem_of_fmap in Hi as (r & -> & Hr').
      by rewrite Hr. }
  by rewrite Hp.
Qed.

Lemma prefix_forall {A} (P : A -> Prop) (l1 l2 : list A) :
  l1 `prefix_of` l2 -> Forall P l2 -> Forall P l1.
Proof. intros [k ->] H. by apply Forall_app in H as [H _]. Qed.

(** On macOS and Windows, whenever [FsWatcher::watch] subscribes, the path
    it subscribes at starts with the longest common prefix of the
    requested paths: it is that prefix or a path under it. *)
Theorem watch_macos_below_common_prefix (w : FsWatcher) (paths : list string)
    (p : path) (mode : RecursiveMode) :
  subscriptions (watch w paths) = subscriptions w ++ [(p, mode)] ->
  starts_with p (longest_common_prefix (map from_str paths)) = true.
Proof.
  intros Hs. unfold watch in Hs.
  destruct paths as [|s0 ps]; simpl in Hs.
  { rewrite <- (app_nil_r (subscriptions w)) in Hs at 1.
    apply app_inv_head in Hs. discriminate. }
  destruct (existsb _ (watched_paths w)); simpl in Hs.
  { rewrite <- (app_nil_r (subscriptions w)) in Hs at 1.
    apply app_inv_head in Hs. discriminate. }
  apply app_inv_head in Hs. injection Hs as <- _.
  simpl. set (F := from_str s0). set (R := map from_str ps).
  set (L := foldl lcp2 F R).
  destruct (lcp_prefix R F) as [HLF HLR]. fold L in HLF, HLR.
  destruct L as [|c0 L'] eqn:EL; [by destruct (from_iter _)|]. rewrite <- EL in *.
  destruct HLF as [comps HF].
  unfold prefix_comps. rewrite HF, collect_prefix_app.
  - assert (Hn : Forall (fun c => c <> RootDir) comps).
    { assert (Ht := from_str_tail_normal s0). fold F in Ht. rewrite HF, EL in Ht.
      simpl in Ht. by apply Forall_app in Ht as [_ Ht]. }
    rewrite from_iter_app_normal by (by apply collect_prefix_forall).
    rewrite from_iter_tail_normal.
    + apply starts_with_prefix. by apply prefix_app_r.
    + assert (Ht := from_str_tail_normal s0). fold F in Ht. rewrite HF, EL in Ht.
      rewrite EL. simpl in Ht |- *. by apply Forall_app in Ht as [Ht _].
  - intros item Hi j c Hj. destruct (HLR item Hi) as [k ->]. simpl.
    by apply lookup_app_l_Some.
Qed.

Lemma watch_macos_below_common_prefix_witness :
  subscriptions (watch fresh_watcher ["/a/b/c"; "/a/x/c"])
    = subscriptions fresh_watcher ++ [(from_str "/a/c", Recursive)] /\
  starts_with (from_str "/a/c")
    (longest_common_prefix (map from_str ["/a/b/c"; "/a/x/c"])) = true.
Proof.
  assert (H : subscriptions (watch fresh_watcher ["/a/b/c"; "/a/x/c"])
    = subscriptions fresh_watcher ++ [(from_str "/a/c", Recursive)])
    by (vm_compute; reflexivity).
  split; [exact H|]. exact (watch_macos_below_common_prefix _ _ _ _ H).
Defined.

Lemma watch_macos_same_paths_witness :
  (forall r, r ∈ ["/a//b/"] -> from_str r = from_str "/a/b") /\
  watch fresh_watcher ["/a/b"; "/a//b/"] =
    if existsb (fun item => starts_with (from_str "/a/b") item) (watched_paths fresh_watcher)
    then fresh_watcher
    else mk_watcher (watched_paths fresh_watcher ++ [from_str "/a/b"])
                    (subscriptions fresh_watcher ++ [(from_str "/a/b", Recursive)]).
Proof.
  assert (H : forall r, r ∈ ["/a//b/"] -> from_str r = from_str "/a/b").
  { intros r Hr. apply list_elem_of_singleton in Hr as ->. vm_compute. reflexivity. }
  split; [exact H|]. exact (watch_macos_same_paths fresh_watcher "/a/b" ["/a//b/"] H).
Defined.

Lemma watch_linux_one_effect (w : Notified) (p : path) :
  NoDup (n_watched w) ->
  exists extra, n_watched (watch_linux_one w p) = n_watched w ++ extra /\
    n_calls (watch_linux_one w p) = n_calls w ++ map (fun q => NWatch q NonRecursive) extra /\
    NoDup (n_watched (watch_linux_one w p)) /\ p ∈ n_watched (watch_linux_one w p).
Proof.
  intros Hnd. unfold watch_linux_one. case_bool_decide as Hin.
  - exists []. rewrite !app_nil_r. done.
  - exists [p]. simpl. split; [done|]. split; [done|]. split.
    + apply NoDup_app. split; [done|]. split; [set_solver|]. apply NoDup_singleton.
    + set_solver.
Qed.

(** On Linux, [FsWatcher::watch] watches each requested path that is not
    yet in [watched_paths], once and non-recursively, in the order given,
    and skips the others: afterwards every requested path is watched and
    [watched_paths] has no duplicates. *)
Theorem watch_linux_effect (w : Notified) (paths : list string) :
  NoDup (n_watched w) ->
  exists extra, n_watched (watch_linux w paths) = n_watched w ++ extra /\
    n_calls (watch_linux w paths) = n_calls w ++ map (fun q => NWatch q NonRecursive) extra /\
    NoDup (n_watched (watch_linux w paths)) /\
    (forall s, s ∈ paths -> from_str s ∈ n_watched (watch_linux w paths)).
Proof.
  unfold watch_linux. revert w. induction paths as [|s ps IH]; intros w Hnd; simpl.
  - exists []. rewrite !app_nil_r. split; [done|]. split; [done|]. split; [done|set_solver].
  - destruct (watch_linux_one_effect w (from_str s) Hnd) as (e1 & H1 & H2 & H3 & H4).
    destruct (IH _ H3) as (e2 & H5 & H6 & H7 & H8).
    exists (e1 ++ e2). split; [by rewrite H5, H1, app_assoc|].
    split; [by rewrite H6, H2, map_app, app_assoc|]. split; [done|].
    intros s' Hs'. apply elem_of_cons in Hs' as [->|Hs']; [|by apply H8].
    rewrite H5. apply elem_of_app. left. done.
Qed.

Lemma watch_linux_effect_witness :
  NoDup (n_watched (mk_notified [] [])) /\
  exists extra,
    n_watched (watch_linux (mk_notified [] []) ["/a"; "/a/"; "/b"]) = n_watched (mk_notified [] []) ++ extra /\
    n_calls (watch_linux (mk_notified [] []) ["/a"; "/a/"; "/b"])
      = n_calls (mk_notified [] []) ++ map (fun q => NWatch q NonRecursive) extra /\
    NoDup (n_watched (watch_linux (mk_notified [] []) ["/a"; "/a/"; "/b"])) /\
    (forall s, s ∈ ["/a"; "/a/"; "/b"] ->
       from_str s ∈ n_watched (watch_linux (mk_notified [] []) ["/a"; "/a/"; "/b"])).
Proof.
  assert (H : NoDup (n_watched (mk_notified [] []))) by constructor.
  split; [exact H|]. exact (watch_linux_effect _ _ H).
Defined.

Lemma file_unwatch_one (w : Notified) (s : string) :
  file_unwatch w [s] = mk_notified (n_watched w) (n_calls w ++ [NUnwatch (from_str s)]).
Proof. reflexivity. Qed.

(** [FsWatcher::unwatch] leaves [watched_paths] as it is: once a path has
    been watched and then unwatched, watching it again makes no call to
    [notify], on Linux as on macOS and Windows, so the last call [notify]
    received for that path is the unwatch. *)
Theorem unwatch_then_watch_is_noop (w : Notified) (s : string) :
  (let w1 := file_unwatch (watch_linux w [s]) [s] in
   watch_linux w1 [s] = w1 /\ last (n_calls w1) = Some (NUnwatch (from_str s))) /\
  (let w2 := file_unwatch (watch_macos w [s]) [s] in
   watch_macos w2 [s] = w2 /\ last (n_calls w2) = Some (NUnwatch (from_str s))).
Proof.
  split; cbv zeta; rewrite file_unwatch_one; (split; [|cbn [n_calls]; by rewrite last_snoc]).
  - unfold watch_linux; simpl. unfold watch_linux_one at 1; simpl.
    rewrite bool_decide_eq_true_2; [done|].
    unfold watch_linux_one. case_bool_decide; [done|]. simpl. set_solver.
  - unfold watch_macos at 1. simpl.
    unfold watch_macos. simpl.
    destruct (existsb _ (n_watched w)) eqn:Ex; simpl; [by rewrite Ex|].
    rewrite existsb_app. simpl. by rewrite starts_with_refl, orb_true_r.
Qed.




End WatcherExtraProofs.

Module ResourcesExtraProofs.
Import Resources.

Lemma resources_fold_last (entries : list (string * Resource)) :
  forall (acc : gmap string (list Byte.byte)) (n : string),
  foldl (fun result '(_, r) =>
           if negb (emitted r) then <[name r := bytes r]> result else result)
    acc entries !! n =
  match last (filter (fun r => name r = n /\ emitted r = false) entries.*2) with
  | Some r => Some (bytes r)
  | None => acc !! n
  end.
Proof.
  induction entries as [|[k r] es IH]; intros acc n; [done|].
  simpl. rewrite IH.
  destruct (decide (name r = n /\ emitted r = false)) as [[Hn He]|Hp].
  - rewrite filter_cons_True by done. rewrite last_cons.
    destruct (last _); [done|]. rewrite He. simpl. by rewrite Hn, lookup_insert_eq.
  - rewrite filter_cons_False by done.
    destruct (last _); [done|]. destruct (emitted r) eqn:He; [done|]. simpl.
    rewrite lookup_insert_ne; [done|]. intros Hn. apply Hp. done.
Qed.

(** [resources()] for any iteration order of the resource map, keyed by
    resource name or not: a name is mapped to the bytes of the last
    resource of that name, in iteration order, that is not emitted, and to
    nothing when every resource of that name is emitted or there is none. *)
Theorem resources_last_unemitted_wins (entries : list (string * Resource)) (n : string) :
  resources_of entries !! n =
    bytes <$> last (filter (fun r => name r = n /\ emitted r = false) entries.*2).
Proof.
  unfold resources_of. rewrite resources_fold_last, lookup_empty. by destruct (last _).
Qed.

End ResourcesExtraProofs.

Module SassExtraProofs.
Import Sass SassHooks.

Lemma list_ascii_of_string_app (a b : string) :
  String.list_ascii_of_string (a +:+ b) =
  String.list_ascii_of_string a ++ String.list_ascii_of_string b.
Proof. induction a as [|c a IH]; [done|]. simpl. by rewrite IH. Qed.

Lemma string_of_list_ascii_app (a b : list Ascii.ascii) :
  String.string_of_list_ascii (a ++ b) =
  String.string_of_list_ascii a +:+ String.string_of_list_ascii b.
Proof. induction a as [|c a IH]; [done|]. simpl. by rewrite IH. Qed.

Lemma ends_with_spec (suf s : string) :
  ends_with suf s = true <-> exists q, s = q +:+ suf.
Proof.
  unfold ends_with. rewrite bool_decide_eq_true. split.
  - intros [k Hk]. exists (String.string_of_list_ascii k).
    rewrite <- (String.string_of_list_ascii_of_string s), Hk, string_of_list_ascii_app.
    by rewrite String.string_of_list_ascii_of_string.
  - intros [q ->]. rewrite list_ascii_of_string_app. by eexists.
Qed.

Lemma regex_is_match_spec (s : string) :
  regex_is_match s = true <-> exists q, s = q +:+ ".sass" \/ s = q +:+ ".scss".
Proof.
  unfold regex_is_match. rewrite orb_true_iff, !ends_with_spec. naive_solver.
Qed.

Lemma json_get_non_object (v : json) (k : string) :
  (forall kvs, v <> JObj kvs) -> json_get v k = None.
Proof. intros H. destruct v; try done. by destruct (H kvs). Qed.

(** Whatever [serde_json::from_str] makes of the plugin's own
    [sass_options] text: when it is not an object (a failed parse becomes
    [Value::Null] through [unwrap_or_default], or an array, a string, a
    number, a boolean), none of the keys is found, and [get_sass_options]
    gives grass's defaults with [load_paths] set to the project root
    alone. *)
Theorem sass_options_non_object (v : json) (root : string) :
  (forall kvs, v <> JObj kvs) ->
  options_from_value v root = mk_sass_options false true true [root].
Proof.
  intros H. unfold options_from_value. by rewrite !json_get_non_object.
Qed.

Lemma sass_options_non_object_witness :
  (forall kvs, JArr [JNum 1; JStr "styles"] <> JObj kvs) /\
  options_from_value (JArr [JNum 1; JStr "styles"]) "/proj"
    = mk_sass_options false true true ["/proj"].
Proof.
  assert (H : forall kvs, JArr [JNum 1; JStr "styles"] <> JObj kvs) by discriminate.
  split; [exact H|]. exact (sass_options_non_object _ "/proj" H).
Defined.

(** [load] of the sass plugin claims exactly the paths ending in ".sass"
    or ".scss": on any other path it returns [None] without reading; on a
    sass path it panics exactly when the file cannot be read as UTF-8. *)
Theorem sass_load_edges (read_file_utf8 : string -> option string) (p : string) :
  (load read_file_utf8 p = Returned None <->
     ~ exists q, p = q +:+ ".sass" \/ p = q +:+ ".scss") /\
  (load read_file_utf8 p = Panicked <->
     (exists q, p = q +:+ ".sass" \/ p = q +:+ ".scss") /\ read_file_utf8 p = None).
Proof.
  rewrite <- !regex_is_match_spec. unfold load.
  destruct (regex_is_match p); [destruct (read_file_utf8 p)|]; naive_solver.
Qed.

(** What [load] returns, [transform] compiles: when [load] accepts a
    path, the content is the file's text, the module type is
    [Custom("sass")], and [transform] on that result calls grass with the
    plugin's options, giving css with no source map and module type [Css],
    or grass's message as a transform error for that path. *)
Theorem sass_load_then_transform (read_file_utf8 : string -> option string)
    (grass_from_string : string -> SassOptions -> string + string)
    (plugin : FarmPluginSass) (p : string) (r : PluginLoadHookResult) :
  load read_file_utf8 p = Returned (Some r) ->
  read_file_utf8 p = Some (load_content r) /\
  load_module_type r = Custom "sass" /\
  transform grass_from_string plugin p (load_content r) (load_module_type r) =
    match grass_from_string (load_content r) (sass_options plugin) with
    | inl msg => inl (TransformError p msg)
    | inr css => inr (Some (mk_transform_result css None (Some Css)))
    end.
Proof.
  unfold load. destruct (regex_is_match p); [|discriminate].
  destruct (read_file_utf8 p) as [c|]; [|discriminate]. intros [= <-]. simpl.
  split; [done|]. split; [done|]. unfold transform.
  by rewrite bool_decide_eq_true_2.
Qed.

Lemma sass_load_then_transform_witness :
  load SassSamples.sample_read "a.scss"
    = Returned (Some (mk_load_result "a { b: c }" (Custom "sass"))) /\
  (SassSamples.sample_read "a.scss" = Some "a { b: c }" /\
   Custom "sass" = Custom "sass" /\
   transform SassSamples.sample_grass {| sass_options := default_options |} "a.scss"
     "a { b: c }" (Custom "sass") =
     match SassSamples.sample_grass "a { b: c }" default_options with
     | inl msg => inl (TransformError "a.scss" msg)
     | inr css => inr (Some (mk_transform_result css None (Some Css)))
     end).
Proof.
  assert (H : load SassSamples.sample_read "a.scss"
    = Returned (Some (mk_load_result "a { b: c }" (Custom "sass")))) by reflexivity.
  split; [exact H|].
  exact (sass_load_then_transform SassSamples.sample_read SassSamples.sample_grass
           {| sass_options := default_options |} _ _ H).
Defined.

End SassExtraProofs.

Module PotGenExtraProofs.
Import Bucket PotName PotGen.

Lemma insert_sorted_perm (x : string) (l : list string) :
  insert_sorted x l ≡ₚ x :: l.
Proof.
  induction l as [|y l IH]; [done|]. simpl.
  destruct (str_leb x y); [done|]. rewrite IH. apply Permutation_swap.
Qed.

Lemma sort_strings_perm (l : list string) : sort_strings l ≡ₚ l.
Proof.
  induction l as [|x l IH]; [done|]. simpl. rewrite insert_sorted_perm. by rewrite IH.
Qed.

Section Inv.
Variable module_type_of : ModuleBucket -> string.
Variable module_buckets_map : gmap string ModuleBucket.
Variable Q : string -> Prop.

Local Abbreviation pots_ok := (PotGenInv.pots_ok module_type_of module_buckets_map Q).
Local Abbreviation handled_ok := (PotGenInv.handled_ok module_buckets_map).

Lemma place_buckets_inv (base : string) (bs : list string) :
  forall index handled pots,
  handled_ok handled -> pots_ok pots -> (forall b, b ∈ bs -> Q b) ->
  match place_buckets module_type_of module_buckets_map base index bs handled pots with
  | None => exists b, b ∈ bs /\ module_buckets_map !! b = None
  | Some (handled', pots') =>
      handled_ok handled' /\ pots_ok pots' /\
      forall b, b ∈ bs -> is_Some (module_buckets_map !! b)
  end.
Proof.
  induction bs as [|b bs IH]; intros index handled pots Hh Hp HQ; simpl.
  - split; [done|]. split; [done|]. intros b Hb. by apply elem_of_nil in Hb.
  - assert (HQ' : forall b', b' ∈ bs -> Q b') by (intros; apply HQ; by right).
    case_bool_decide as Hin.
    + specialize (IH (S index) handled pots Hh Hp HQ').
      destruct (place_buckets _ _ _ _ _ _ _) as [[h' p']|].
      * destruct IH as (? & ? & Hall). split; [done|]. split; [done|].
        intros b' Hb'. apply elem_of_cons in Hb' as [->|Hb']; [by apply Hh|by apply Hall].
      * destruct IH as (b' & ? & ?). exists b'. split; [by right|done].
    + destruct (module_buckets_map !! b) as [bk|] eqn:Eb; [|exists b; split; [left|]; done].
      assert (Hh' : handled_ok ({[b]} ∪ handled)).
      { intros h Hh'. apply elem_of_union in Hh' as [Hh'|Hh'];
          [apply elem_of_singleton in Hh' as ->; by rewrite Eb|by apply Hh]. }
      assert (Hp' : pots_ok (<[base +:+ "_" +:+ pretty index :=
                mk_resource_pot (base +:+ "_" +:+ pretty index) (module_type_of bk) (modules bk)]> pots)).
      { intros pid pot Hpot. apply lookup_insert_Some in Hpot as [[<- <-]|[_ Hpot]].
        - split; [done|]. exists b, bk. split; [apply HQ; left|done].
        - by apply Hp. }
      specialize (IH (S index) _ _ Hh' Hp' HQ').
      destruct (place_buckets _ _ _ _ _ _ _) as [[h' p']|].
      * destruct IH as (? & ? & Hall). split; [done|]. split; [done|].
        intros b' Hb'. apply elem_of_cons in Hb' as [->|Hb']; [by rewrite Eb|by apply Hall].
      * destruct IH as (b' & ? & ?). exists b'. split; [by right|done].
Qed.

Lemma generate_groups_inv (entries : gmap string string) (groups : list ModuleGroupBuckets) :
  forall used handled pots,
  handled_ok handled -> pots_ok pots ->
  (forall g b, g ∈ groups -> b ∈ buckets g -> Q b) ->
  match generate_groups module_type_of module_buckets_map entries groups used handled pots with
  | None => exists g b, g ∈ groups /\ b ∈ buckets g /\ module_buckets_map !! b = None
  | Some pots' =>
      pots_ok pots' /\
      forall g b, g ∈ groups -> b ∈ buckets g -> is_Some (module_buckets_map !! b)
  end.
Proof.
  induction groups as [|g gs IH]; intros used handled pots Hh Hp HQ; simpl.
  - split; [done|]. intros g b Hg. by apply elem_of_nil in Hg.
  - assert (HQg : forall b, b ∈ sort_strings (buckets g) -> Q b).
    { intros b Hb. rewrite sort_strings_perm in Hb. apply (HQ g); [left|done]. }
    pose proof (place_buckets_inv (generate_resource_pot_name (module_group_id g) used entries)
                  (sort_strings (buckets g)) 0 handled pots Hh Hp HQg) as Hpl.
    destruct (place_buckets _ _ _ _ _ _ _) as [[h' p']|].
    + destruct Hpl as (Hh' & Hp' & Hall).
      assert (HQ' : forall g' b, g' ∈ gs -> b ∈ buckets g' -> Q b)
        by (intros g' b Hg'; apply HQ; by right).
      specialize (IH ({[generate_resource_pot_name (module_group_id g) used entries]} ∪ used)
                    h' p' Hh' Hp' HQ').
      destruct (generate_groups _ _ _ _ _ _ _) as [pots'|].
      * destruct IH as [? Hall']. split; [done|].
        intros g' b Hg' Hb. apply elem_of_cons in Hg' as [->|Hg']; [|by apply (Hall' g')].
        apply Hall. by rewrite sort_strings_perm.
      * destruct IH as (g' & b & ? & ? & ?). exists g', b. split; [by right|done].
    + destruct Hpl as (b & Hb & ?). rewrite sort_strings_perm in Hb.
      exists g, b. split; [left|done].
Qed.

End Inv.

(** [generate_resource_pots] panics exactly when some bucket id listed in
    a module group is missing from [module_buckets_map]. Otherwise every
    pot it returns is stored under its own id and holds the modules and
    the module type of one bucket listed in some group. *)
Theorem generate_resource_pots_spec (module_type_of : ModuleBucket -> string)
    (groups : list ModuleGroupBuckets) (module_buckets_map : gmap string ModuleBucket)
    (entries : gmap string string) :
  match generate_resource_pots module_type_of groups module_buckets_map entries with
  | None => exists g b, g ∈ groups /\ b ∈ buckets g /\ module_buckets_map !! b = None
  | Some pots =>
      (forall g b, g ∈ groups -> b ∈ buckets g -> is_Some (module_buckets_map !! b)) /\
      forall pid pot, pots !! pid = Some pot ->
        pot_id pot = pid /\
        exists g b bk, g ∈ groups /\ b ∈ buckets g /\ module_buckets_map !! b = Some bk /\
          pot_modules pot = modules bk /\ pot_module_type pot = module_type_of bk
  end.
Proof.
  pose proof (generate_groups_inv module_type_of module_buckets_map
                (fun b => exists g, g ∈ groups /\ b ∈ buckets g) entries groups ∅ ∅ ∅)
    as H.
  unfold generate_resource_pots.
  destruct (generate_groups _ _ _ _ _ _ _) as [pots|].
  - destruct H as [Hp Hall].
    + intros h Hh. by apply elem_of_empty in Hh.
    + intros pid pot Hpot. by rewrite lookup_empty in Hpot.
    + intros g b ? ?. by exists g.
    + split; [done|]. intros pid pot Hpot.
      destruct (Hp pid pot Hpot) as (Hid & b & bk & (g & ? & ?) & ? & ? & ?).
      split; [done|]. exists g, b, bk. done.
  - apply H.
    + intros h Hh. by apply elem_of_empty in Hh.
    + intros pid pot Hpot. by rewrite lookup_empty in Hpot.
    + intros g b ? ?. by exists g.
Qed.

End PotGenExtraProofs.
